(** * cmLoadCommandCommand: loading natively compiled commands

    A shallow embedding of [Source/cmLoadCommandCommand.cxx]: the signal
    handler guard, the shared [LoadedCommandImpl] object, the
    [cmLoadedCommand] proxy and the [load_command] directive, followed by
    the properties of the specification that are about them.

    Conventions of the embedding.
    - Function pointers of the plugin are addresses ([fnptr]); what the
      code behind an address does is given by the [Platform] record, which
      also holds the dynamic loader and the file system.
    - Plugin code is handed the [cmLoadedCommandInfo] it was called on and
      the C heap, and returns both; it may change every field of the table.
    - [free] and reads of C strings are total: a violation of the C heap
      discipline is recorded in [faults] and the run goes on, so that the
      control flow of the host code stays observable.
    - [log] is the sequence of calls that leave this translation unit, in
      program order. *)

From Stdlib Require Import ZArith.
From stdpp Require Import gmap strings list fin_maps.

Local Open Scope Z_scope.
Local Open Scope nat_scope.

(** ** The C heap of error buffers *)

Record block := Block { contents : string; live : bool }.

Definition fnptr := nat.

Inductive CallKind := KInit | KInitialPass | KFinalPass | KDestructor.

Inductive Fault :=
| DoubleFree (p : nat)
| InvalidFree (p : nat)
| UseAfterFree (p : nat)
| WildRead (p : nat)
| NullCall (k : CallKind)
| NullDeref.

(** [free(p)]: the block stays where it is, it is only no longer live. *)
Definition free (p : nat) (h : gmap nat block) : gmap nat block * list Fault :=
  match h !! p with
  | Some b =>
      if live b then (<[p := Block (contents b) false]> h, [])
      else (h, [DoubleFree p])
  | None => (h, [InvalidFree p])
  end.

(** Building a [std::string] from the C string at [p]: the bytes found
    there. *)
Definition read_c_str (p : nat) (h : gmap nat block) : string * list Fault :=
  match h !! p with
  | Some b => (contents b, if live b then [] else [UseAfterFree p])
  | None => (""%string, [WildRead p])
  end.

(** [strdup], as plugin code uses it to fill the error buffer. *)
Definition strdup (s : string) (h : gmap nat block) : nat * gmap nat block :=
  let p := fresh (dom h) in (p, <[p := Block s true]> h).

(** ** Signals *)

Inductive Signal := SIGSEGV | SIGBUS | SIGILL.

(** A signal disposition: the null pointer, the handler of this file, or
    some handler installed by other code. *)
Inductive Handler := NullHandler | TrapsForSignals | ForeignHandler (id : nat).

Record SigTable := MkSigTable {
  on_SIGSEGV : Handler;
  on_SIGBUS : Handler;
  on_SIGILL : Handler
}.

Definition handler_of (t : SigTable) (s : Signal) : Handler :=
  match s with
  | SIGSEGV => on_SIGSEGV t
  | SIGBUS => on_SIGBUS t
  | SIGILL => on_SIGILL t
  end.

Definition signal (s : Signal) (h : Handler) (t : SigTable) : SigTable :=
  match s with
  | SIGSEGV => MkSigTable h (on_SIGBUS t) (on_SIGILL t)
  | SIGBUS => MkSigTable (on_SIGSEGV t) h (on_SIGILL t)
  | SIGILL => MkSigTable (on_SIGSEGV t) (on_SIGBUS t) h
  end.

(** ** The native function table *)

(** Modelled from the spec: the declaration of [cmLoadedCommandInfo]
    ([cmCPluginAPI.h]) is not part of the sources at hand.  The record has
    the fields this file reads: the three entry points, the display name and
    the error buffer.  The other slots of the initializer list (two reserved
    words, the capability table, [m_Inherited], the documentation callbacks
    and the client data) are zero or null and never read here. *)
Record cmLoadedCommandInfo := MkInfo {
  InitialPass : option fnptr;
  FinalPass : option fnptr;
  Destructor : option fnptr;
  Name : option string;
  Error : option nat
}.

(** The object behind a [std::shared_ptr<LoadedCommandImpl>]: the table and
    the use count of the control block. *)
Record SharedImpl := MkShared { obj : cmLoadedCommandInfo; use_count : nat }.

(** [cmCommand] keeps the message of [SetError]; [cmLoadedCommand] adds the
    shared pointer, which is null after default construction. *)
Record cmLoadedCommand := MkProxy { Impl : option nat; cmdError : string }.

(** ** The trace of outgoing calls *)

Inductive Event :=
| EvForeign (k : CallKind) (self : nat) (f : fnptr)
            (installed : SigTable) (tag : option string)
| EvRemoveDefinition (var : string)
| EvAddDefinition (var value : string)
| EvFindFile (name : string)
| EvOpenLibrary (path : string)
| EvGetSymbolAddress (lib : nat) (sym : string)
| EvAddScriptedCommand (name : string) (proxy : nat)
| EvAddFinalAction (self : nat).

(** ** The state of the process *)

Record World := MkWorld {
  heap : gmap nat block;
  faults : list Fault;
  sigtable : SigTable;
  LastName : option string;
  impls : gmap nat SharedImpl;
  proxies : gmap nat cmLoadedCommand;
  definitions : gmap string string;
  FinalActions : list nat;
  registry : gmap string nat;
  log : list Event
}.

Definition set_heap (h : gmap nat block) (w : World) : World :=
  MkWorld h (faults w) (sigtable w) (LastName w) (impls w) (proxies w)
          (definitions w) (FinalActions w) (registry w) (log w).
Definition add_faults (fs : list Fault) (w : World) : World :=
  MkWorld (heap w) (faults w ++ fs) (sigtable w) (LastName w) (impls w)
          (proxies w) (definitions w) (FinalActions w) (registry w) (log w).
Definition set_sigtable (t : SigTable) (w : World) : World :=
  MkWorld (heap w) (faults w) t (LastName w) (impls w) (proxies w)
          (definitions w) (FinalActions w) (registry w) (log w).
Definition set_LastName (n : option string) (w : World) : World :=
  MkWorld (heap w) (faults w) (sigtable w) n (impls w) (proxies w)
          (definitions w) (FinalActions w) (registry w) (log w).
Definition set_impls (m : gmap nat SharedImpl) (w : World) : World :=
  MkWorld (heap w) (faults w) (sigtable w) (LastName w) m (proxies w)
          (definitions w) (FinalActions w) (registry w) (log w).
Definition set_proxies (m : gmap nat cmLoadedCommand) (w : World) : World :=
  MkWorld (heap w) (faults w) (sigtable w) (LastName w) (impls w) m
          (definitions w) (FinalActions w) (registry w) (log w).
Definition set_definitions (m : gmap string string) (w : World) : World :=
  MkWorld (heap w) (faults w) (sigtable w) (LastName w) (impls w) (proxies w)
          m (FinalActions w) (registry w) (log w).
Definition set_FinalActions (l : list nat) (w : World) : World :=
  MkWorld (heap w) (faults w) (sigtable w) (LastName w) (impls w) (proxies w)
          (definitions w) l (registry w) (log w).
Definition set_registry (m : gmap string nat) (w : World) : World :=
  MkWorld (heap w) (faults w) (sigtable w) (LastName w) (impls w) (proxies w)
          (definitions w) (FinalActions w) m (log w).
Definition emit (e : Event) (w : World) : World :=
  MkWorld (heap w) (faults w) (sigtable w) (LastName w) (impls w) (proxies w)
          (definitions w) (FinalActions w) (registry w) (log w ++ [e]).

(** [free] on the heap of the world. *)
Definition free_in (p : nat) (w : World) : World :=
  let '(h, fs) := free p (heap w) in add_faults fs (set_heap h w).

(** ** What lies outside this translation unit *)

Record Platform := MkPlatform {
  (** whether [SIGBUS] is defined by [<signal.h>] *)
  SIGBUS_defined : bool;
  (** [cmSystemTools::ExpandRegistryValues], in place *)
  ExpandRegistryValues : string → string;
  (** [cmSystemTools::GlobDirs]: the entries appended to the search path *)
  GlobDirs : string → list string;
  (** the file system *)
  FileExists : string → bool;
  (** [cmDynamicLoader::OpenLibrary] and the loader's [LastError] *)
  OpenLibrary : string → option nat;
  LastError : string → option string;
  (** [cmsys::DynamicLoader::GetSymbolAddress] *)
  GetSymbolAddress : nat → string → option fnptr;
  (** the code behind a plugin address, by the signature it is called at *)
  code_init : fnptr → cmLoadedCommandInfo → gmap nat block →
              cmLoadedCommandInfo * gmap nat block;
  code_initial_pass : fnptr → cmLoadedCommandInfo → gmap nat block →
                      Z → list string →
                      Z * cmLoadedCommandInfo * gmap nat block;
  code_final_pass : fnptr → cmLoadedCommandInfo → gmap nat block →
                    cmLoadedCommandInfo * gmap nat block;
  code_destructor : fnptr → cmLoadedCommandInfo → gmap nat block →
                    cmLoadedCommandInfo * gmap nat block
}.

(** ** [SignalHandlerGuard] *)

Module SignalHandlerGuard.
Section Guard.
Context (P : Platform).

(** The constructor: [LastName] and the three [signal] calls. *)
Definition ctor (name : option string) (w : World) : World :=
  let w := set_LastName (Some (default "????"%string name)) w in
  let w := set_sigtable (signal SIGSEGV TrapsForSignals (sigtable w)) w in
  let w := if SIGBUS_defined P
           then set_sigtable (signal SIGBUS TrapsForSignals (sigtable w)) w
           else w in
  set_sigtable (signal SIGILL TrapsForSignals (sigtable w)) w.

(** The destructor: [signal(sig, nullptr)] for the same signals. *)
Definition dtor (w : World) : World :=
  let w := set_sigtable (signal SIGSEGV NullHandler (sigtable w)) w in
  let w := if SIGBUS_defined P
           then set_sigtable (signal SIGBUS NullHandler (sigtable w)) w
           else w in
  set_sigtable (signal SIGILL NullHandler (sigtable w)) w.

(** A block with a [SignalHandlerGuard guard(name);] as its first
    statement: the destructor runs when the block is left. *)
Definition scoped {A} (name : option string) (body : World → A * World)
    (w : World) : A * World :=
  let '(r, w) := body (ctor name w) in (r, dtor w).
End Guard.
End SignalHandlerGuard.

(** ** [LoadedCommandImpl] *)

Module LoadedCommandImpl.
Section Impl.
Context (P : Platform).

(** The member initializer list: every slot read here is null. *)
Definition zero : cmLoadedCommandInfo := MkInfo None None None None None.

(** The constructor body, [init(this)]. *)
Definition ctor (self : nat) (init : fnptr) (w : World)
    : cmLoadedCommandInfo * World :=
  let w := emit (EvForeign KInit self init (sigtable w) (LastName w)) w in
  let '(this, h) := code_init P init zero (heap w) in
  (this, set_heap h w).

Definition dtor (self : nat) (this : cmLoadedCommandInfo) (w : World)
    : cmLoadedCommandInfo * World :=
  let '(this, w) :=
    match Destructor this with
    | Some f =>
        SignalHandlerGuard.scoped P (Name this) (λ w,
          let w := emit (EvForeign KDestructor self f (sigtable w)
                                   (LastName w)) w in
          let '(this, h) := code_destructor P f this (heap w) in
          (this, set_heap h w)) w
    | None => (this, w)
    end in
  match Error this with
  | Some e => (this, free_in e w)
  | None => (this, w)
  end.

Definition DoInitialPass (self : nat) (this : cmLoadedCommandInfo)
    (argc : Z) (argv : list string) (w : World)
    : Z * cmLoadedCommandInfo * World :=
  SignalHandlerGuard.scoped P (Name this) (λ w,
    match InitialPass this with
    | Some f =>
        let w := emit (EvForeign KInitialPass self f (sigtable w)
                                 (LastName w)) w in
        let '(r, this, h) := code_initial_pass P f this (heap w) argc argv in
        (r, this, set_heap h w)
    | None => (0%Z, this, add_faults [NullCall KInitialPass] w)
    end) w.

Definition DoFinalPass (self : nat) (this : cmLoadedCommandInfo) (w : World)
    : cmLoadedCommandInfo * World :=
  SignalHandlerGuard.scoped P (Name this) (λ w,
    match FinalPass this with
    | Some f =>
        let w := emit (EvForeign KFinalPass self f (sigtable w)
                                 (LastName w)) w in
        let '(this, h) := code_final_pass P f this (heap w) in
        (this, set_heap h w)
    | None => (this, add_faults [NullCall KFinalPass] w)
    end) w.
End Impl.
End LoadedCommandImpl.

(** ** [std::shared_ptr<LoadedCommandImpl>] *)

Module shared_ptr.
Section Shared.
Context (P : Platform).

(** Copying a shared pointer to [a]. *)
Definition acquire (a : nat) (w : World) : World :=
  match impls w !! a with
  | Some o =>
      set_impls (<[a := MkShared (obj o) (S (use_count o))]> (impls w)) w
  | None => add_faults [NullDeref] w
  end.

(** Writing the table of the pointee back after a member call. *)
Definition store (a : nat) (this : cmLoadedCommandInfo) (w : World) : World :=
  match impls w !! a with
  | Some o => set_impls (<[a := MkShared this (use_count o)]> (impls w)) w
  | None => w
  end.

(** Destroying a shared pointer to [a]: the last one destroys the
    pointee. *)
Definition release (a : nat) (w : World) : World :=
  match impls w !! a with
  | Some o =>
      match use_count o with
      | S (S n) => set_impls (<[a := MkShared (obj o) (S n)]> (impls w)) w
      | _ =>
          let '(_, w) := LoadedCommandImpl.dtor P a (obj o) w in
          set_impls (delete a (impls w)) w
      end
  | None => add_faults [NullDeref] w
  end.
End Shared.
End shared_ptr.

(** ** The host objects this file calls into *)

(** Modelled from the spec: [cmMakefile] and [cmState] are not part of the
    sources at hand.  The definition store is a map from names to values,
    the final actions are a queue of closures, each owning the shared
    pointer it captured, and the scripted commands are a map from names to
    command objects. *)
Module cmMakefile.
Section Makefile.
Context (P : Platform).

Definition RemoveDefinition (var : string) (w : World) : World :=
  emit (EvRemoveDefinition var)
       (set_definitions (delete var (definitions w)) w).

Definition AddDefinition (var value : string) (w : World) : World :=
  emit (EvAddDefinition var value)
       (set_definitions (<[var := value]> (definitions w)) w).

Definition GetRequiredDefinition (var : string) (w : World) : string :=
  default ""%string (definitions w !! var).

(** [AddFinalAction] with a closure that captured [impl] by value. *)
Definition AddFinalAction (impl : nat) (w : World) : World :=
  emit (EvAddFinalAction impl)
       (set_FinalActions (FinalActions w ++ [impl]) w).

Definition AddScriptedCommand (name : string) (proxy : nat) (w : World)
    : World :=
  emit (EvAddScriptedCommand name proxy)
       (set_registry (<[name := proxy]> (registry w)) w).

(** Running one closure: [impl->DoFinalPass(&makefile)]. *)
Definition run_action (impl : nat) (w : World) : World :=
  match impls w !! impl with
  | Some o =>
      let '(this, w) := LoadedCommandImpl.DoFinalPass P impl (obj o) w in
      shared_ptr.store impl this w
  | None => add_faults [NullDeref] w
  end.

(** The drain point: every queued closure is called, in order. *)
Definition RunFinalActions (w : World) : World :=
  foldl (λ w impl, run_action impl w) w (FinalActions w).

(** Discarding the queue destroys the closures and with them the shared
    pointers they own. *)
Definition DiscardFinalActions (w : World) : World :=
  foldl (λ w impl, shared_ptr.release P impl w)
        (set_FinalActions [] w) (FinalActions w).
End Makefile.
End cmMakefile.

(** Modelled from the spec: [cmSystemTools::FindFile] is not part of the
    sources at hand.  The search path is tried in order and the first
    directory that holds the file gives the result; a miss is the empty
    string. *)
Fixpoint FindFile (P : Platform) (name : string) (path : list string) : string :=
  match path with
  | [] => ""%string
  | dir :: rest =>
      if FileExists P (dir +:+ "/" +:+ name) then dir +:+ "/" +:+ name
      else FindFile P name rest
  end.

(** [static_cast<int>] of a size. *)
Definition to_int (n : Z) : Z :=
  ((n + 2147483648) mod 4294967296 - 2147483648)%Z.

(** ** [cmLoadedCommand], the command proxy *)

Module cmLoadedCommand.
Section Proxy.
Context (P : Platform).

(** [cmLoadedCommand(init)]: [std::make_shared<LoadedCommandImpl>(init)]
    for a new command object.  The result is the address of the command
    object. *)
Definition ctor (init : fnptr) (w : World) : nat * World :=
  let a := fresh (dom (impls w)) in
  let '(this, w) := LoadedCommandImpl.ctor P a init w in
  let w := set_impls (<[a := MkShared this 1]> (impls w)) w in
  let p := fresh (dom (proxies w)) in
  (p, set_proxies (<[p := MkProxy (Some a) ""%string]> (proxies w)) w).

(** The implicit destructor: the member [Impl] is destroyed with the
    command object. *)
Definition dtor (p : nat) (w : World) : World :=
  match proxies w !! p with
  | Some c =>
      let w := set_proxies (delete p (proxies w)) w in
      match Impl c with
      | Some a => shared_ptr.release P a w
      | None => w
      end
  | None => w
  end.

Definition Clone (p : nat) (w : World) : option nat * World :=
  match proxies w !! p with
  | Some c =>
      let newC := fresh (dom (proxies w)) in
      (* we must copy when we clone *)
      let w := match Impl c with
               | Some a => shared_ptr.acquire a w
               | None => w
               end in
      (Some newC,
       set_proxies (<[newC := MkProxy (Impl c) ""%string]> (proxies w)) w)
  | None => (None, w)
  end.

Definition SetError (p : nat) (e : string) (w : World) : World :=
  match proxies w !! p with
  | Some c => set_proxies (<[p := MkProxy (Impl c) e]> (proxies w)) w
  | None => w
  end.

(** [None] is a call on something that is not a command object with a
    pointee. *)
Definition InitialPass (p : nat) (args : list string) (w : World)
    : option bool * World :=
  match proxies w !! p with
  | None => (None, w)
  | Some c =>
  match Impl c with
  | None => (None, add_faults [NullDeref] w)
  | Some a =>
  match impls w !! a with
  | None => (None, add_faults [NullDeref] w)
  | Some o =>
    match InitialPass (obj o) with
    | None => (Some true, w)
    | Some _ =>
      (* clear the error string *)
      let w := match Error (obj o) with
               | Some e => free_in e w
               | None => w
               end in
      (* create argc and argv and then invoke the command *)
      let argc := to_int (Z.of_nat (length args)) in
      let argv := take (Z.to_nat argc) args in
      let '(result, this, w) :=
        LoadedCommandImpl.DoInitialPass P a (obj o) argc argv w in
      let w := shared_ptr.store a this w in
      if negb (result =? 0)%Z then
        match FinalPass this with
        | Some _ =>
            (Some true, cmMakefile.AddFinalAction a (shared_ptr.acquire a w))
        | None => (Some true, w)
        end
      else
        (* Initial Pass must have failed so set the error string *)
        match Error this with
        | Some e =>
            let '(msg, fs) := read_c_str e (heap w) in
            (Some false, SetError p msg (add_faults fs w))
        | None => (Some false, w)
        end
    end
  end end end.
End Proxy.
End cmLoadedCommand.

(** ** [cmLoadCommandCommand], the load directive *)

Definition dquote : string := String (Ascii.ascii_of_nat 34) EmptyString.
Definition newline : string := String (Ascii.ascii_of_nat 10) EmptyString.

Module cmLoadCommandCommand.
Section Directive.
Context (P : Platform).

Definition reportVar (name : string) : string :=
  "CMAKE_LOADED_COMMAND_" +:+ name.

Definition moduleName (name : string) (w : World) : string :=
  cmMakefile.GetRequiredDefinition "CMAKE_SHARED_MODULE_PREFIX" w +:+ "cm"
    +:+ name
    +:+ cmMakefile.GetRequiredDefinition "CMAKE_SHARED_MODULE_SUFFIX" w.

(** The loop over [args[1..]]: expand, then glob into [path]. *)
Definition searchPath (locs : list string) : list string :=
  flat_map (λ exp, GlobDirs P (ExpandRegistryValues P exp)) locs.

Definition lookup_symbol (lib : nat) (sym : string) (w : World)
    : option fnptr * World :=
  (GetSymbolAddress P lib sym, emit (EvGetSymbolAddress lib sym) w).

(** The result is the return value, the message left by [SetError] (empty
    when it was not called) and the world. *)
Definition InitialPass (args : list string) (w : World)
    : bool * string * World :=
  match args with
  | [] => (true, ""%string, w)
  | name :: locs =>
    (* Construct a variable to report what file was loaded, if any.
       Start by removing the definition in case of failure. *)
    let w := cmMakefile.RemoveDefinition (reportVar name) w in
    (* the file must exist *)
    let moduleName := moduleName name w in
    (* search for the file *)
    let path := searchPath locs in
    (* Try to find the program. *)
    let fullPath := FindFile P moduleName path in
    let w := emit (EvFindFile moduleName) w in
    if decide (fullPath = ""%string) then
      (false,
       "Attempt to load command failed from file " +:+ dquote
         +:+ moduleName +:+ dquote, w)
    else
      (* try loading the shared library / dll *)
      let w := emit (EvOpenLibrary fullPath) w in
      match OpenLibrary P fullPath with
      | None =>
          let err := "Attempt to load the library " +:+ fullPath
                       +:+ " failed." in
          let err := match LastError P fullPath with
                     | Some error =>
                         err +:+ " Additional error info is:" +:+ newline
                             +:+ error
                     | None => err
                     end in
          (false, err, w)
      | Some lib =>
          (* Report what file was loaded for this command. *)
          let w := cmMakefile.AddDefinition (reportVar name) fullPath w in
          (* find the init function *)
          let '(initFunction, w) := lookup_symbol lib (name +:+ "Init") w in
          let '(initFunction, w) :=
            match initFunction with
            | Some f => (Some f, w)
            | None => lookup_symbol lib ("_" +:+ name +:+ "Init") w
            end in
          match initFunction with
          | Some f =>
              let '(proxy, w) := cmLoadedCommand.ctor P f w in
              (true, ""%string, cmMakefile.AddScriptedCommand name proxy w)
          | None =>
              (false,
               "Attempt to load command failed. No init function found."%string,
               w)
          end
      end
  end.
End Directive.
End cmLoadCommandCommand.

(** ** The host driving the command objects *)

(** What the host does with command objects and with the queue of final
    actions between two directives.  The host clones a registered command,
    invokes the clone and destroys it; it drains the queue at the end of the
    scope, or discards it with the makefile. *)
Inductive HostOp :=
| OpClone (p : nat)
| OpInvoke (p : nat) (args : list string)
| OpDestroy (p : nat)
| OpRunFinalActions
| OpDiscardFinalActions.

Definition step (P : Platform) (op : HostOp) (w : World) : World :=
  match op with
  | OpClone p => (cmLoadedCommand.Clone p w).2
  | OpInvoke p args => (cmLoadedCommand.InitialPass P p args w).2
  | OpDestroy p => cmLoadedCommand.dtor P p w
  | OpRunFinalActions => cmMakefile.RunFinalActions P w
  | OpDiscardFinalActions => cmMakefile.DiscardFinalActions P w
  end.

Definition run (P : Platform) (ops : list HostOp) (w : World) : World :=
  foldl (λ w op, step P op w) w ops.

Definition is_discard (op : HostOp) : bool :=
  match op with OpDiscardFinalActions => true | _ => false end.

(** ** Observations on a world *)

(** The shared pointers to [a]: those held by command objects and those
    held by queued closures. *)
Definition refs_from_proxies (a : nat) (w : World) : nat :=
  size (filter (λ kv : nat * cmLoadedCommand, Impl kv.2 = Some a) (proxies w)).

Definition refs_from_actions (a : nat) (w : World) : nat :=
  length (filter (λ b, b = a) (FinalActions w)).

Definition holders (a : nat) (w : World) : nat :=
  refs_from_proxies a w + refs_from_actions a w.

(** The use count of [a] is [n], and the object is gone when [n] is zero. *)
Definition accounted (a n : nat) (w : World) : Prop :=
  match impls w !! a with
  | Some o => use_count o = n ∧ 0 < n
  | None => n = 0
  end.

(** The use count of [a] is the number of shared pointers to it, and an
    object without a shared pointer to it is gone. *)
Definition counted (a : nat) (w : World) : Prop :=
  accounted a (holders a w) w.

(** The table of [a], while it exists, has a teardown entry point. *)
Definition has_destructor (a : nat) (w : World) : Prop :=
  match impls w !! a with
  | Some o => is_Some (Destructor (obj o))
  | None => True
  end.

(** One teardown is still to come for an object that exists. *)
Definition pending (a : nat) (w : World) : nat :=
  match impls w !! a with Some _ => 1 | None => 0 end.

Definition is_teardown (a : nat) (e : Event) : bool :=
  match e with
  | EvForeign KDestructor self _ _ _ => bool_decide (self = a)
  | _ => false
  end.

(** How often the teardown entry point of [a] was called. *)
Definition teardowns (a : nat) (l : list Event) : nat :=
  length (List.filter (is_teardown a) l).

Definition is_foreign (e : Event) : bool :=
  match e with EvForeign _ _ _ _ _ => true | _ => false end.

Definition foreign_calls (l : list Event) : list Event :=
  List.filter is_foreign l.

(** The symbols looked up, in order. *)
Definition symbol_lookups (l : list Event) : list (nat * string) :=
  omap (λ e, match e with
             | EvGetSymbolAddress lib sym => Some (lib, sym)
             | _ => None
             end) l.

Definition registrations (l : list Event) : list string :=
  omap (λ e, match e with
             | EvAddScriptedCommand name _ => Some name
             | _ => None
             end) l.

(** The objects of the host are the same in both worlds. *)
Definition same_host (w w' : World) : Prop :=
  impls w' = impls w ∧ proxies w' = proxies w ∧
  definitions w' = definitions w ∧ FinalActions w' = FinalActions w ∧
  registry w' = registry w.

(** What a call into the plugin finds when a guard for [name] is in place:
    the handler of this file for the fault signals ([SIGBUS] as the code
    around the guard left it where it is not defined) and the name as tag. *)
Definition guard_installed (P : Platform) (name : option string)
    (ambient t : SigTable) (tag : option string) : Prop :=
  handler_of t SIGSEGV = TrapsForSignals ∧
  handler_of t SIGILL = TrapsForSignals ∧
  handler_of t SIGBUS =
    (if SIGBUS_defined P then TrapsForSignals else handler_of ambient SIGBUS) ∧
  tag = Some (default "????"%string name).

(** Whether an immediate pass with return code [rc] that left the table
    [this] queues the deferred pass. *)
Definition schedules (rc : Z) (this : cmLoadedCommandInfo) : bool :=
  negb (rc =? 0)%Z && bool_decide (is_Some (FinalPass this)).

(** Plugin code that never clears a teardown entry point that is set. *)
Definition keeps_destructor (P : Platform) : Prop :=
  (∀ f this h argc argv,
     is_Some (Destructor this) →
     is_Some (Destructor (code_initial_pass P f this h argc argv).1.2)) ∧
  (∀ f this h,
     is_Some (Destructor this) →
     is_Some (Destructor (code_final_pass P f this h).1)).

(** From [w] to [w'] the object [a] was not revived, its teardown was not
    called if it still exists, and, for plugin code that keeps its teardown
    entry point, the calls made and the call to come add up to the same. *)
Definition benign (P : Platform) (a : nat) (w w' : World) : Prop :=
  (impls w !! a = None → impls w' !! a = None) ∧
  (is_Some (impls w' !! a) → teardowns a (log w') = teardowns a (log w)) ∧
  (keeps_destructor P → has_destructor a w →
   has_destructor a w' ∧
   teardowns a (log w') + pending a w' = teardowns a (log w) + pending a w).

(** ** The report variable as the specification names it *)

Definition toupper (c : Ascii.ascii) : Ascii.ascii :=
  let n := Ascii.nat_of_ascii c in
  if (97 <=? n) && (n <=? 122) then Ascii.ascii_of_nat (n - 32) else c.

Fixpoint uppercase (s : string) : string :=
  match s with
  | EmptyString => EmptyString
  | String c s => String (toupper c) (uppercase s)
  end.

(** The specification's [<REPORT_PREFIX>_<CommandName>], uppercased. *)
Definition spec_reportVar (name : string) : string :=
  uppercase ("CMAKE_LOADED_COMMAND" +:+ "_" +:+ name).

(** ** A concrete platform

    One directory, [./plugins], with two modules: [libcmFoo.so] exports
    [FooInit], [libcmBar.so] exports no initializer.  The command [Foo]
    fails with the message [bad arg] on the argument [bad], fails without a
    message on [quiet], and succeeds otherwise. *)
Module Demo.
Definition set_Error (e : option nat) (this : cmLoadedCommandInfo)
    : cmLoadedCommandInfo :=
  MkInfo (InitialPass this) (FinalPass this) (Destructor this) (Name this) e.

Definition FooInitialPass (this : cmLoadedCommandInfo) (h : gmap nat block)
    (argc : Z) (argv : list string)
    : Z * cmLoadedCommandInfo * gmap nat block :=
  if decide (argv = ["bad"%string]) then
    let '(p, h) := strdup "bad arg" h in (0%Z, set_Error (Some p) this, h)
  else if decide (argv = ["quiet"%string]) then (0%Z, this, h)
  else (1%Z, this, h).

Definition platform : Platform := {|
  SIGBUS_defined := true;
  ExpandRegistryValues := λ s, s;
  GlobDirs := λ s, [s];
  FileExists := λ f,
    bool_decide (f = "./plugins/libcmFoo.so"%string
                 ∨ f = "./plugins/libcmBar.so"%string);
  OpenLibrary := λ f,
    if decide (f = "./plugins/libcmFoo.so"%string) then Some 1
    else if decide (f = "./plugins/libcmBar.so"%string) then Some 2
    else None;
  LastError := λ _, Some "cannot open shared object file"%string;
  GetSymbolAddress := λ lib sym,
    if decide (lib = 1 ∧ sym = "FooInit"%string) then Some 10 else None;
  code_init := λ _ _ h,
    (MkInfo (Some 11) (Some 12) (Some 13) (Some "Foo"%string) None, h);
  code_initial_pass := λ _, FooInitialPass;
  code_final_pass := λ _ this h, (this, h);
  code_destructor := λ _ this h, (this, h)
|}.

Definition no_handlers : SigTable :=
  MkSigTable NullHandler NullHandler NullHandler.

(** A fresh process with the module affixes of a Unix host. *)
Definition start : World := {|
  heap := ∅; faults := []; sigtable := no_handlers; LastName := None;
  impls := ∅; proxies := ∅;
  definitions :=
    <["CMAKE_SHARED_MODULE_PREFIX"%string := "lib"%string]>
      (<["CMAKE_SHARED_MODULE_SUFFIX"%string := ".so"%string]> ∅);
  FinalActions := []; registry := ∅; log := []
|}.

(** The same process after the application installed a handler of its
    own for [SIGSEGV]. *)
Definition with_handler : World :=
  set_sigtable (signal SIGSEGV (ForeignHandler 7) no_handlers) start.

(** [load_command(Foo ./plugins)] went through: the command object is at
    address 0 and its shared state at address 0. *)
Definition loaded : World :=
  (cmLoadCommandCommand.InitialPass platform
     ["Foo"%string; "./plugins"%string] start).2.

(** [Foo(bad)] was invoked on the registered command object. *)
Definition after_bad : World :=
  (cmLoadedCommand.InitialPass platform 0 ["bad"%string] loaded).2.

(** [Foo(go)] was invoked: the deferred pass is queued. *)
Definition after_go : World :=
  (cmLoadedCommand.InitialPass platform 0 ["go"%string] loaded).2.
End Demo.

(** ** The whole host: directives and operations on command objects *)

(** What happens in a process: a load directive is executed, or the host
    does something with the command objects or the queue. *)
Inductive Action :=
| ActLoad (args : list string)
| ActHost (op : HostOp).

Definition perform (P : Platform) (act : Action) (w : World) : World :=
  match act with
  | ActLoad args => (cmLoadCommandCommand.InitialPass P args w).2
  | ActHost op => step P op w
  end.

Definition performs (P : Platform) (acts : list Action) (w : World) : World :=
  foldl (λ w act, perform P act w) w acts.

(** ** A platform whose module cannot be opened

    As [Demo.platform], but the loader refuses [libcmFoo.so]. *)
Module DemoRefused.
Definition platform : Platform := {|
  SIGBUS_defined := SIGBUS_defined Demo.platform;
  ExpandRegistryValues := ExpandRegistryValues Demo.platform;
  GlobDirs := GlobDirs Demo.platform;
  FileExists := FileExists Demo.platform;
  OpenLibrary := λ _, None;
  LastError := λ _, Some "file too short"%string;
  GetSymbolAddress := GetSymbolAddress Demo.platform;
  code_init := code_init Demo.platform;
  code_initial_pass := code_initial_pass Demo.platform;
  code_final_pass := code_final_pass Demo.platform;
  code_destructor := code_destructor Demo.platform
|}.
End DemoRefused.

(** What a guard for [name] leaves behind when its block is left: the name
    stays recorded and the fault signals are at the null handler ([SIGBUS]
    as before the guard where it is not defined). *)
Definition guard_left (P : Platform) (name : option string)
    (ambient : SigTable) (w' : World) : Prop :=
  LastName w' = Some (default "????"%string name) ∧
  handler_of (sigtable w') SIGSEGV = NullHandler ∧
  handler_of (sigtable w') SIGILL = NullHandler ∧
  handler_of (sigtable w') SIGBUS =
    (if SIGBUS_defined P then NullHandler else handler_of ambient SIGBUS).

(** * Properties *)

(** ** The guard and the calls into the plugin *)

Section GuardFacts.
Context (P : Platform).

(** The table of dispositions a guard leaves installed. *)
Lemma guard_ctor_sigtable name w :
  let t := sigtable (SignalHandlerGuard.ctor P name w) in
  handler_of t SIGSEGV = TrapsForSignals ∧
  handler_of t SIGILL = TrapsForSignals ∧
  handler_of t SIGBUS =
    (if SIGBUS_defined P then TrapsForSignals
     else handler_of (sigtable w) SIGBUS) ∧
  LastName (SignalHandlerGuard.ctor P name w)
    = Some (default "????"%string name).
Proof.
  unfold SignalHandlerGuard.ctor.
  destruct (SIGBUS_defined P); simpl; auto.
Qed.

Lemma guard_ctor_frame name w :
  let w' := SignalHandlerGuard.ctor P name w in
  heap w' = heap w ∧ faults w' = faults w ∧ impls w' = impls w ∧
  proxies w' = proxies w ∧ definitions w' = definitions w ∧
  FinalActions w' = FinalActions w ∧ registry w' = registry w ∧
  log w' = log w.
Proof.
  unfold SignalHandlerGuard.ctor.
  destruct (SIGBUS_defined P); simpl; repeat split.
Qed.

Lemma guard_dtor_frame w :
  let w' := SignalHandlerGuard.dtor P w in
  heap w' = heap w ∧ faults w' = faults w ∧ impls w' = impls w ∧
  proxies w' = proxies w ∧ definitions w' = definitions w ∧
  FinalActions w' = FinalActions w ∧ registry w' = registry w ∧
  log w' = log w.
Proof.
  unfold SignalHandlerGuard.dtor.
  destruct (SIGBUS_defined P); simpl; repeat split.
Qed.

Lemma guard_dtor_sigtable w :
  let t := sigtable (SignalHandlerGuard.dtor P w) in
  handler_of t SIGSEGV = NullHandler ∧
  handler_of t SIGILL = NullHandler ∧
  handler_of t SIGBUS =
    (if SIGBUS_defined P then NullHandler
     else handler_of (sigtable w) SIGBUS).
Proof.
  unfold SignalHandlerGuard.dtor.
  destruct (SIGBUS_defined P); simpl; auto.
Qed.
End GuardFacts.

(** C2, as amended.  When a guarded block is left, the dispositions of
    [SIGSEGV] and [SIGILL], and of [SIGBUS] where it is defined, are the
    null handler, whatever was installed before the guard and whatever the
    block did; the disposition found before the guard is back exactly when
    it was the null handler.  Where [SIGBUS] is not defined its disposition
    is the one the block left. *)
Theorem C2_guard_resets_handlers (P : Platform) (A : Type)
    (name : option string) (body : World → A * World) (w : World) :
  let w' := (SignalHandlerGuard.scoped P name body w).2 in
  handler_of (sigtable w') SIGSEGV = NullHandler ∧
  handler_of (sigtable w') SIGILL = NullHandler ∧
  handler_of (sigtable w') SIGBUS =
    (if SIGBUS_defined P then NullHandler
     else handler_of
            (sigtable (body (SignalHandlerGuard.ctor P name w)).2) SIGBUS) ∧
  (handler_of (sigtable w') SIGSEGV = handler_of (sigtable w) SIGSEGV
     ↔ handler_of (sigtable w) SIGSEGV = NullHandler) ∧
  (handler_of (sigtable w') SIGILL = handler_of (sigtable w) SIGILL
     ↔ handler_of (sigtable w) SIGILL = NullHandler).
Proof.
  unfold SignalHandlerGuard.scoped.
  destruct (body (SignalHandlerGuard.ctor P name w)) as [r w1] eqn:Hbody.
  cbv zeta. cbn [snd].
  destruct (guard_dtor_sigtable P w1) as (Hsegv & Hill & Hbus).
  cbv zeta in Hsegv, Hill, Hbus.
  rewrite Hsegv, Hill, Hbus.
  repeat split; congruence.
Qed.

(** C2, as the specification states it, fails: a handler installed for
    [SIGSEGV] before the guard is not back after it. *)
Lemma C2_counterexample :
  let body := λ w : World, (tt, w) in
  let w' := (SignalHandlerGuard.scoped Demo.platform (Some "Foo"%string)
               body Demo.with_handler).2 in
  handler_of (sigtable Demo.with_handler) SIGSEGV = ForeignHandler 7 ∧
  handler_of (sigtable w') SIGSEGV = NullHandler ∧
  handler_of (sigtable w') SIGSEGV
    ≠ handler_of (sigtable Demo.with_handler) SIGSEGV.
Proof. vm_compute. repeat split; discriminate. Qed.

(** Reading a field of an updated world, without unfolding the updates
    that are not read. *)
Ltac wsimpl :=
  cbn [heap faults sigtable LastName impls proxies definitions FinalActions
       registry log fst snd emit set_heap add_faults set_sigtable
       set_LastName set_impls set_proxies set_definitions set_FinalActions
       set_registry] in *.

Section ImplFacts.
Context (P : Platform).

Lemma Impl_ctor_spec self init w :
  let r := LoadedCommandImpl.ctor P self init w in
  r.1 = (code_init P init LoadedCommandImpl.zero (heap w)).1 ∧
  heap r.2 = (code_init P init LoadedCommandImpl.zero (heap w)).2 ∧
  same_host w r.2 ∧ faults r.2 = faults w ∧
  sigtable r.2 = sigtable w ∧ LastName r.2 = LastName w ∧
  log r.2 = log w ++ [EvForeign KInit self init (sigtable w) (LastName w)].
Proof.
  unfold LoadedCommandImpl.ctor, same_host. wsimpl.
  destruct (code_init P init LoadedCommandImpl.zero (heap w)) as [t h].
  wsimpl. repeat split.
Qed.

Lemma DoInitialPass_spec self this argc argv w :
  let r := LoadedCommandImpl.DoInitialPass P self this argc argv w in
  let g := SignalHandlerGuard.ctor P (Name this) w in
  same_host w r.2 ∧
  match InitialPass this with
  | Some f =>
      r.1 = (code_initial_pass P f this (heap w) argc argv).1 ∧
      heap r.2 = (code_initial_pass P f this (heap w) argc argv).2 ∧
      faults r.2 = faults w ∧
      log r.2 = log w ++ [EvForeign KInitialPass self f (sigtable g)
                                    (LastName g)]
  | None =>
      r.1 = (0%Z, this) ∧ heap r.2 = heap w ∧
      faults r.2 = faults w ++ [NullCall KInitialPass] ∧
      log r.2 = log w
  end.
Proof.
  unfold LoadedCommandImpl.DoInitialPass, SignalHandlerGuard.scoped.
  destruct (guard_ctor_frame P (Name this) w)
    as (Hh & Hf & Hi & Hp & Hd & Ha & Hr & Hl).
  cbv zeta in *.
  remember (SignalHandlerGuard.ctor P (Name this) w) as g eqn:Hg.
  clear Hg.
  destruct (InitialPass this) as [f|].
  - wsimpl. rewrite Hh.
    destruct (code_initial_pass P f this (heap w) argc argv) as [[rc t] h].
    match goal with
    | |- context [SignalHandlerGuard.dtor P ?x] =>
        destruct (guard_dtor_frame P x)
          as (Hh' & Hf' & Hi' & Hp' & Hd' & Ha' & Hr' & Hl')
    end.
    unfold same_host. wsimpl.
    rewrite Hh', Hf', Hi', Hp', Hd', Ha', Hr', Hl'.
    rewrite Hf, Hi, Hp, Hd, Ha, Hr, Hl. repeat split.
  - match goal with
    | |- context [SignalHandlerGuard.dtor P ?x] =>
        destruct (guard_dtor_frame P x)
          as (Hh' & Hf' & Hi' & Hp' & Hd' & Ha' & Hr' & Hl')
    end.
    unfold same_host. wsimpl.
    rewrite Hh', Hf', Hi', Hp', Hd', Ha', Hr', Hl'.
    rewrite Hh, Hf, Hi, Hp, Hd, Ha, Hr, Hl. repeat split.
Qed.

Lemma DoFinalPass_spec self this w :
  let r := LoadedCommandImpl.DoFinalPass P self this w in
  let g := SignalHandlerGuard.ctor P (Name this) w in
  same_host w r.2 ∧
  match FinalPass this with
  | Some f =>
      r.1 = (code_final_pass P f this (heap w)).1 ∧
      heap r.2 = (code_final_pass P f this (heap w)).2 ∧
      faults r.2 = faults w ∧
      log r.2 = log w ++ [EvForeign KFinalPass self f (sigtable g)
                                    (LastName g)]
  | None =>
      r.1 = this ∧ heap r.2 = heap w ∧
      faults r.2 = faults w ++ [NullCall KFinalPass] ∧
      log r.2 = log w
  end.
Proof.
  unfold LoadedCommandImpl.DoFinalPass, SignalHandlerGuard.scoped.
  destruct (guard_ctor_frame P (Name this) w)
    as (Hh & Hf & Hi & Hp & Hd & Ha & Hr & Hl).
  cbv zeta in *.
  remember (SignalHandlerGuard.ctor P (Name this) w) as g eqn:Hg.
  clear Hg.
  destruct (FinalPass this) as [f|].
  - wsimpl. rewrite Hh.
    destruct (code_final_pass P f this (heap w)) as [t h].
    match goal with
    | |- context [SignalHandlerGuard.dtor P ?x] =>
        destruct (guard_dtor_frame P x)
          as (Hh' & Hf' & Hi' & Hp' & Hd' & Ha' & Hr' & Hl')
    end.
    unfold same_host. wsimpl.
    rewrite Hh', Hf', Hi', Hp', Hd', Ha', Hr', Hl'.
    rewrite Hf, Hi, Hp, Hd, Ha, Hr, Hl. repeat split.
  - match goal with
    | |- context [SignalHandlerGuard.dtor P ?x] =>
        destruct (guard_dtor_frame P x)
          as (Hh' & Hf' & Hi' & Hp' & Hd' & Ha' & Hr' & Hl')
    end.
    unfold same_host. wsimpl.
    rewrite Hh', Hf', Hi', Hp', Hd', Ha', Hr', Hl'.
    rewrite Hh, Hf, Hi, Hp, Hd, Ha, Hr, Hl. repeat split.
Qed.

Lemma free_in_frame e w :
  same_host w (free_in e w) ∧ log (free_in e w) = log w ∧
  sigtable (free_in e w) = sigtable w ∧ LastName (free_in e w) = LastName w ∧
  heap (free_in e w) = (free e (heap w)).1 ∧
  faults (free_in e w) = faults w ++ (free e (heap w)).2.
Proof.
  unfold free_in, same_host. destruct (free e (heap w)) as [h fs].
  wsimpl. repeat split.
Qed.

(** The destructor calls the teardown entry point when there is one, and
    nothing else leaves a trace. *)
Lemma Impl_dtor_spec self this w :
  let r := LoadedCommandImpl.dtor P self this w in
  let g := SignalHandlerGuard.ctor P (Name this) w in
  same_host w r.2 ∧
  log r.2 = log w ++
    match Destructor this with
    | Some f => [EvForeign KDestructor self f (sigtable g) (LastName g)]
    | None => []
    end.
Proof.
  unfold LoadedCommandImpl.dtor, SignalHandlerGuard.scoped.
  destruct (guard_ctor_frame P (Name this) w)
    as (Hh & Hf & Hi & Hp & Hd & Ha & Hr & Hl).
  cbv zeta in *.
  remember (SignalHandlerGuard.ctor P (Name this) w) as g eqn:Hg.
  clear Hg.
  destruct (Destructor this) as [f|].
  - wsimpl.
    destruct (code_destructor P f this (heap g)) as [t h].
    match goal with
    | |- context [SignalHandlerGuard.dtor P ?x] =>
        destruct (guard_dtor_frame P x)
          as (Hh' & Hf' & Hi' & Hp' & Hd' & Ha' & Hr' & Hl');
        remember (SignalHandlerGuard.dtor P x) as w2 eqn:Hw2; clear Hw2
    end.
    wsimpl.
    assert (same_host w w2 ∧ log w2 = log w ++
              [EvForeign KDestructor self f (sigtable g) (LastName g)])
      as [Hs Hlog].
    { unfold same_host.
      rewrite Hi', Hp', Hd', Ha', Hr', Hl', Hi, Hp, Hd, Ha, Hr, Hl.
      repeat split. }
    destruct (Error t) as [e|]; cbn [fst snd]; [|auto].
    destruct (free_in_frame e w2) as (Hs2 & Hl2 & _).
    unfold same_host in *. rewrite Hl2, Hlog.
    destruct Hs2 as (-> & -> & -> & -> & ->).
    destruct Hs as (-> & -> & -> & -> & ->). repeat split.
  - rewrite app_nil_r.
    destruct (Error this) as [e|]; cbn [fst snd].
    + destruct (free_in_frame e w) as (Hs2 & Hl2 & _). auto.
    + unfold same_host. repeat split.
Qed.
End ImplFacts.

(** C9.  The initializer is called with the dispositions and the tag the
    constructor found, and the constructor leaves both as they were: no
    guard is in place.  The immediate pass, the deferred pass and the
    teardown are each called once, with the guard for the name of the table
    in place (the name [????] for a table without a name). *)
Theorem C9_only_initializer_unguarded (P : Platform) (self : nat)
    (init : fnptr) (this : cmLoadedCommandInfo) (argc : Z)
    (argv : list string) (w : World) :
  (let r := LoadedCommandImpl.ctor P self init w in
   log r.2 = log w ++ [EvForeign KInit self init (sigtable w) (LastName w)] ∧
   sigtable r.2 = sigtable w ∧ LastName r.2 = LastName w) ∧
  (let r := LoadedCommandImpl.DoInitialPass P self this argc argv w in
   match InitialPass this with
   | Some f => ∃ t tag,
       log r.2 = log w ++ [EvForeign KInitialPass self f t tag] ∧
       guard_installed P (Name this) (sigtable w) t tag
   | None => log r.2 = log w
   end) ∧
  (let r := LoadedCommandImpl.DoFinalPass P self this w in
   match FinalPass this with
   | Some f => ∃ t tag,
       log r.2 = log w ++ [EvForeign KFinalPass self f t tag] ∧
       guard_installed P (Name this) (sigtable w) t tag
   | None => log r.2 = log w
   end) ∧
  (let r := LoadedCommandImpl.dtor P self this w in
   match Destructor this with
   | Some f => ∃ t tag,
       log r.2 = log w ++ [EvForeign KDestructor self f t tag] ∧
       guard_installed P (Name this) (sigtable w) t tag
   | None => log r.2 = log w
   end).
Proof.
  pose proof (guard_ctor_sigtable P (Name this) w) as Hg. cbv zeta in Hg.
  assert (Hinst : guard_installed P (Name this) (sigtable w)
            (sigtable (SignalHandlerGuard.ctor P (Name this) w))
            (LastName (SignalHandlerGuard.ctor P (Name this) w))).
  { unfold guard_installed. tauto. }
  split; [|split; [|split]].
  - destruct (Impl_ctor_spec P self init w) as (_ & _ & _ & _ & Hs & Hn & Hl).
    cbv zeta in *. auto.
  - destruct (DoInitialPass_spec P self this argc argv w) as [_ H].
    cbv zeta in *. destruct (InitialPass this) as [f|].
    + destruct H as (_ & _ & _ & Hl). eauto.
    + tauto.
  - destruct (DoFinalPass_spec P self this w) as [_ H].
    cbv zeta in *. destruct (FinalPass this) as [f|].
    + destruct H as (_ & _ & _ & Hl). eauto.
    + tauto.
  - destruct (Impl_dtor_spec P self this w) as [_ H].
    cbv zeta in *. destruct (Destructor this) as [f|].
    + eauto.
    + by rewrite app_nil_r in H.
Qed.

(** ** The immediate pass of a command object *)

Section ProxyFacts.
Context (P : Platform).

Lemma proxy_InitialPass_spec p args w c a o :
  proxies w !! p = Some c → Impl c = Some a → impls w !! a = Some o →
  let r := cmLoadedCommand.InitialPass P p args w in
  match InitialPass (obj o) with
  | None => r = (Some true, w)
  | Some f =>
      let w0 := match Error (obj o) with
                | Some e => free_in e w
                | None => w
                end in
      let g := SignalHandlerGuard.ctor P (Name (obj o)) w0 in
      let argc := to_int (Z.of_nat (length args)) in
      let out := code_initial_pass P f (obj o) (heap w0) argc
                   (take (Z.to_nat argc) args) in
      let rc := out.1.1 in
      let this := out.1.2 in
      r.1 = Some (negb (rc =? 0)%Z) ∧
      impls r.2 = <[a := MkShared this
                          (if schedules rc this then S (use_count o)
                           else use_count o)]> (impls w) ∧
      FinalActions r.2 = FinalActions w ++
                         (if schedules rc this then [a] else []) ∧
      log r.2 = log w ++
                EvForeign KInitialPass a f (sigtable g) (LastName g)
                :: (if schedules rc this then [EvAddFinalAction a] else []) ∧
      (∃ msg, proxies r.2 = <[p := MkProxy (Some a) msg]> (proxies w)) ∧
      definitions r.2 = definitions w ∧ registry r.2 = registry w
  end.
Proof.
  intros Hp Hc Ho. unfold cmLoadedCommand.InitialPass.
  rewrite Hp, Hc, Ho. cbv zeta.
  destruct (InitialPass (obj o)) as [f|] eqn:Hf; [|reflexivity].
  remember (match Error (obj o) with
            | Some e => free_in e w
            | None => w
            end) as w0 eqn:Hw0.
  assert (Hs0 : same_host w w0 ∧ log w0 = log w).
  { subst w0. destruct (Error (obj o)) as [e|].
    - destruct (free_in_frame e w) as (? & ? & _). split; assumption.
    - unfold same_host. repeat split. }
  clear Hw0. destruct Hs0 as [Hs0 Hl0].
  pose proof (DoInitialPass_spec P a (obj o)
                (to_int (Z.of_nat (length args)))
                (take (Z.to_nat (to_int (Z.of_nat (length args)))) args) w0)
    as Hspec.
  cbv zeta in Hspec. rewrite Hf in Hspec.
  destruct (LoadedCommandImpl.DoInitialPass P a (obj o) _ _ w0)
    as [[rc this] w1].
  destruct (code_initial_pass P f (obj o) (heap w0) _ _) as [[rc' this'] h'].
  cbn [fst snd] in *.
  destruct Hspec as (Hs1 & Heq & Hh1 & Hf1 & Hl1).
  injection Heq as -> ->.
  assert (Hi1 : impls w1 = impls w)
    by (destruct Hs0 as (? & _), Hs1 as (? & _); congruence).
  assert (Hp1 : proxies w1 = proxies w)
    by (destruct Hs0 as (_ & ? & _), Hs1 as (_ & ? & _); congruence).
  assert (Hd1 : definitions w1 = definitions w)
    by (destruct Hs0 as (_ & _ & ? & _), Hs1 as (_ & _ & ? & _); congruence).
  assert (Ha1 : FinalActions w1 = FinalActions w)
    by (destruct Hs0 as (_ & _ & _ & ? & _), Hs1 as (_ & _ & _ & ? & _);
        congruence).
  assert (Hr1 : registry w1 = registry w)
    by (destruct Hs0 as (_ & _ & _ & _ & ?), Hs1 as (_ & _ & _ & _ & ?);
        congruence).
  rewrite Hl0 in Hl1. clear Hs0 Hs1 Hl0.
  assert (Hid : proxies w = <[p := MkProxy (Some a) (cmdError c)]> (proxies w)).
  { symmetry. apply insert_id. rewrite Hp, <- Hc. by destruct c. }
  unfold schedules, shared_ptr.store. rewrite Hi1, Ho.
  destruct (negb (rc' =? 0)%Z); cbn [andb].
  - destruct (FinalPass this') as [fp|].
    + rewrite bool_decide_true by eauto.
      unfold cmMakefile.AddFinalAction, shared_ptr.acquire. wsimpl.
      rewrite lookup_insert_eq. wsimpl. rewrite insert_insert_eq.
      rewrite Hl1, Ha1, Hp1, Hd1, Hr1, <- app_assoc.
      repeat split; eauto.
    + rewrite bool_decide_false by (intros [? ?]; discriminate).
      wsimpl. rewrite Hl1, Ha1, Hp1, Hd1, Hr1, app_nil_r.
      repeat split; eauto.
  - destruct (Error this') as [e|].
    + wsimpl. destruct (read_c_str e (heap w1)) as [msg fs].
      unfold cmLoadedCommand.SetError. wsimpl. rewrite Hp1, Hp. wsimpl.
      rewrite Hl1, Ha1, Hd1, Hr1, app_nil_r, Hc.
      repeat split; eauto.
    + wsimpl. rewrite Hl1, Ha1, Hp1, Hd1, Hr1, app_nil_r.
      repeat split; eauto.
Qed.
End ProxyFacts.

(** C8.  Without an immediate-pass entry point the call returns [true] and
    leaves the world as it was, so nothing was called and nothing queued.
    With one, the entry point is called once; the result is [true] exactly
    when its return code is not zero and [false] exactly when it is zero; a
    return code other than zero with a deferred-pass entry point in the
    table queues the deferred pass, and a zero return code queues nothing. *)
Theorem C8_immediate_pass_result (P : Platform) (p : nat)
    (args : list string) (w : World) (c : cmLoadedCommand) (a : nat)
    (o : SharedImpl) :
  proxies w !! p = Some c → Impl c = Some a → impls w !! a = Some o →
  let r := cmLoadedCommand.InitialPass P p args w in
  match InitialPass (obj o) with
  | None => r = (Some true, w)
  | Some f =>
      let w0 := match Error (obj o) with
                | Some e => free_in e w
                | None => w
                end in
      let argc := to_int (Z.of_nat (length args)) in
      let out := code_initial_pass P f (obj o) (heap w0) argc
                   (take (Z.to_nat argc) args) in
      let rc := out.1.1 in
      let this := out.1.2 in
      (r.1 = Some true ↔ rc ≠ 0%Z) ∧
      (r.1 = Some false ↔ rc = 0%Z) ∧
      (∃ t tag, foreign_calls (log r.2)
                = foreign_calls (log w) ++ [EvForeign KInitialPass a f t tag]) ∧
      (rc ≠ 0%Z → is_Some (FinalPass this) →
         FinalActions r.2 = FinalActions w ++ [a]) ∧
      (rc ≠ 0%Z → FinalPass this = None → FinalActions r.2 = FinalActions w) ∧
      (rc = 0%Z → FinalActions r.2 = FinalActions w)
  end.
Proof.
  intros Hp Hc Ho.
  pose proof (proxy_InitialPass_spec P p args w c a o Hp Hc Ho) as H.
  cbv zeta in *. destruct (InitialPass (obj o)) as [f|]; [|exact H].
  destruct H as (Hr & _ & Ha & Hl & _). rewrite Hr, Ha, Hl.
  unfold schedules, foreign_calls.
  match goal with |- context [(?x =? 0)%Z] => destruct (Z.eqb_spec x 0) as [E|E] end.
  - rewrite E. cbn [negb andb]. rewrite app_nil_r.
    repeat split; try done.
    eexists _, _. rewrite List.filter_app. reflexivity.
  - cbn [negb andb]. repeat split; try done.
    + eexists _, _. rewrite List.filter_app. cbn [List.filter is_foreign].
      by destruct (bool_decide _).
    + intros _ Hfp. by rewrite bool_decide_true.
    + intros _ Hfp. rewrite bool_decide_false, app_nil_r; [done|].
      rewrite Hfp. by intros [? ?].
Qed.

Lemma C8_witness :
  proxies Demo.loaded !! 0 = Some (MkProxy (Some 0) ""%string) ∧
  (obj <$> impls Demo.loaded !! 0) ≫= InitialPass = Some 11 ∧
  (cmLoadedCommand.InitialPass Demo.platform 0 ["go"%string] Demo.loaded).1
    = Some true ∧
  (cmLoadedCommand.InitialPass Demo.platform 0 ["quiet"%string] Demo.loaded).1
    = Some false ∧
  FinalActions
    (cmLoadedCommand.InitialPass Demo.platform 0 ["go"%string] Demo.loaded).2
    = [0].
Proof.
  assert (Hp : proxies Demo.loaded !! 0 = Some (MkProxy (Some 0) ""%string))
    by (vm_compute; reflexivity).
  assert (Ho : impls Demo.loaded !! 0
               = Some (MkShared (MkInfo (Some 11) (Some 12) (Some 13)
                                        (Some "Foo"%string) None) 1))
    by (vm_compute; reflexivity).
  pose proof (C8_immediate_pass_result Demo.platform 0 ["go"%string]
                Demo.loaded _ 0 _ Hp eq_refl Ho) as Hgo.
  pose proof (C8_immediate_pass_result Demo.platform 0 ["quiet"%string]
                Demo.loaded _ 0 _ Hp eq_refl Ho) as Hquiet.
  cbn [obj InitialPass Error] in Hgo, Hquiet.
  destruct Hgo as (Hgo1 & _ & _ & Hgo4 & _).
  destruct Hquiet as (_ & Hq2 & _).
  split; [exact Hp|]. split; [rewrite Ho; reflexivity|].
  split; [apply Hgo1; vm_compute; discriminate|].
  split; [apply Hq2; vm_compute; reflexivity|].
  apply Hgo4; [vm_compute; discriminate|vm_compute; eauto].
Defined.

(** C1, on the code.  [Foo(bad)] fails and leaves its message in a buffer
    of the plugin.  [Foo(quiet)] then fails without storing a message.  The
    host frees the buffer of the first call before the second call but
    leaves the table pointing at it, so the second call ends with the
    message of the first one, read from freed memory.  This is so on the
    command object of the first call and on a fresh clone of it. *)
Theorem C1_stale_error_reaches_host :
  let w1 := Demo.after_bad in
  let r2 := cmLoadedCommand.InitialPass Demo.platform 0 ["quiet"%string] w1 in
  let rc := cmLoadedCommand.Clone 0 w1 in
  let r2' := cmLoadedCommand.InitialPass Demo.platform 1 ["quiet"%string]
               rc.2 in
  (* after the first call *)
  (obj <$> impls w1 !! 0) ≫= Error = Some 0 ∧
  heap w1 !! 0 = Some (Block "bad arg" true) ∧
  (* the second call on the same command object *)
  r2.1 = Some false ∧
  (obj <$> impls r2.2 !! 0) ≫= Error = Some 0 ∧
  heap r2.2 !! 0 = Some (Block "bad arg" false) ∧
  cmdError <$> proxies r2.2 !! 0 = Some "bad arg"%string ∧
  faults r2.2 = [UseAfterFree 0] ∧
  (* the second call on a clone, whose message starts empty *)
  rc.1 = Some 1 ∧
  cmdError <$> proxies rc.2 !! 1 = Some ""%string ∧
  r2'.1 = Some false ∧
  cmdError <$> proxies r2'.2 !! 1 = Some "bad arg"%string ∧
  faults r2'.2 = [UseAfterFree 0].
Proof. vm_compute. repeat split. Qed.

(** ** The load directive *)

Section DirectiveFacts.
Context (P : Platform).

Lemma reportVar_not_affix name :
  cmLoadCommandCommand.reportVar name ≠ "CMAKE_SHARED_MODULE_PREFIX"%string ∧
  cmLoadCommandCommand.reportVar name ≠ "CMAKE_SHARED_MODULE_SUFFIX"%string.
Proof.
  unfold cmLoadCommandCommand.reportVar. split; intros H; simpl in H;
    discriminate H.
Qed.

(** Removing the report variable does not change the module name. *)
Lemma moduleName_RemoveDefinition name w :
  cmLoadCommandCommand.moduleName name
    (cmMakefile.RemoveDefinition (cmLoadCommandCommand.reportVar name) w)
  = cmLoadCommandCommand.moduleName name w.
Proof.
  destruct (reportVar_not_affix name) as [H1 H2].
  unfold cmLoadCommandCommand.moduleName, cmMakefile.GetRequiredDefinition,
    cmMakefile.RemoveDefinition.
  wsimpl. by rewrite !lookup_delete_ne.
Qed.

Lemma proxy_ctor_spec init w :
  let r := cmLoadedCommand.ctor P init w in
  let a := fresh (dom (impls w)) in
  r.1 = fresh (dom (proxies w)) ∧
  impls r.2 = <[a := MkShared
                  (code_init P init LoadedCommandImpl.zero (heap w)).1 1]>
                (impls w) ∧
  proxies r.2 = <[r.1 := MkProxy (Some a) ""%string]> (proxies w) ∧
  definitions r.2 = definitions w ∧ FinalActions r.2 = FinalActions w ∧
  registry r.2 = registry w ∧
  log r.2 = log w ++ [EvForeign KInit a init (sigtable w) (LastName w)].
Proof.
  unfold cmLoadedCommand.ctor. cbv zeta.
  pose proof (Impl_ctor_spec P (fresh (dom (impls w))) init w) as H.
  cbv zeta in H.
  destruct (LoadedCommandImpl.ctor P (fresh (dom (impls w))) init w)
    as [this w1].
  cbn [fst snd] in *.
  destruct H as (-> & _ & (Hi & Hp & Hd & Ha & Hr) & _ & _ & _ & Hl).
  wsimpl. rewrite Hi, Hp, Hd, Ha, Hr, Hl. repeat split.
Qed.

Lemma FindFile_miss name path :
  Forall (λ dir, FileExists P (dir +:+ "/" +:+ name) = false) path →
  FindFile P name path = ""%string.
Proof.
  induction 1 as [|dir path Hd _ IH]; [reflexivity|].
  simpl. by rewrite Hd.
Qed.

Lemma FindFile_hit name path :
  FindFile P name path ≠ ""%string →
  ∃ dir, dir ∈ path ∧ FindFile P name path = dir +:+ "/" +:+ name ∧
         FileExists P (dir +:+ "/" +:+ name) = true.
Proof.
  induction path as [|dir path IH]; [done|]. simpl.
  destruct (FileExists P (dir +:+ "/" +:+ name)) eqn:E.
  - intros _. exists dir. split; [left|done].
  - intros H. destruct (IH H) as (d & Hin & Heq & Hex).
    exists d. split; [by right|done].
Qed.
(** The directive when the module is not found or cannot be opened. *)
Lemma directive_not_opened name locs w :
  let var := cmLoadCommandCommand.reportVar name in
  let m := cmLoadCommandCommand.moduleName name w in
  let fullPath := FindFile P m (cmLoadCommandCommand.searchPath P locs) in
  let r := cmLoadCommandCommand.InitialPass P (name :: locs) w in
  fullPath = ""%string ∨ OpenLibrary P fullPath = None →
  r.1.1 = false ∧
  definitions r.2 = delete var (definitions w) ∧
  registry r.2 = registry w ∧ impls r.2 = impls w ∧
  proxies r.2 = proxies w ∧
  ∃ rest, log r.2 = log w ++ EvRemoveDefinition var :: rest.
Proof.
  intros var m fullPath r H. subst r.
  unfold cmLoadCommandCommand.InitialPass. cbv zeta.
  rewrite moduleName_RemoveDefinition. fold var m fullPath.
  destruct (decide (fullPath = ""%string)) as [E|E].
  - unfold cmMakefile.RemoveDefinition. wsimpl. repeat split.
    eexists. rewrite <- app_assoc. reflexivity.
  - destruct H as [H|H]; [done|]. rewrite H.
    unfold cmMakefile.RemoveDefinition. wsimpl. repeat split.
    eexists. rewrite <- !app_assoc. reflexivity.
Qed.

(** The directive once the module is found and opened. *)
Lemma directive_opened name locs w lib :
  let var := cmLoadCommandCommand.reportVar name in
  let m := cmLoadCommandCommand.moduleName name w in
  let fullPath := FindFile P m (cmLoadCommandCommand.searchPath P locs) in
  let canonical := name +:+ "Init" in
  let alternate := "_" +:+ name +:+ "Init" in
  let found := match GetSymbolAddress P lib canonical with
               | Some f => Some f
               | None => GetSymbolAddress P lib alternate
               end in
  let r := cmLoadCommandCommand.InitialPass P (name :: locs) w in
  fullPath ≠ ""%string → OpenLibrary P fullPath = Some lib →
  definitions r.2 = <[var := fullPath]> (delete var (definitions w)) ∧
  ∃ tail,
    log r.2 = log w ++
      [EvRemoveDefinition var; EvFindFile m; EvOpenLibrary fullPath;
       EvAddDefinition var fullPath; EvGetSymbolAddress lib canonical] ++
      match GetSymbolAddress P lib canonical with
      | Some _ => []
      | None => [EvGetSymbolAddress lib alternate]
      end ++ tail ∧
    match found with
    | Some f =>
        r.1 = (true, ""%string) ∧
        tail = [EvForeign KInit (fresh (dom (impls w))) f (sigtable w)
                          (LastName w);
                EvAddScriptedCommand name (fresh (dom (proxies w)))] ∧
        registry r.2 = <[name := fresh (dom (proxies w))]> (registry w)
    | None =>
        r.1 = (false,
               "Attempt to load command failed. No init function found."%string) ∧
        tail = [] ∧ registry r.2 = registry w ∧ impls r.2 = impls w ∧
        proxies r.2 = proxies w
    end.
Proof.
  intros var m fullPath canonical alternate found r Hne Hopen.
  subst r found canonical alternate.
  unfold cmLoadCommandCommand.InitialPass. cbv zeta.
  rewrite moduleName_RemoveDefinition. fold var m fullPath.
  rewrite decide_False by done. rewrite Hopen.
  unfold cmLoadCommandCommand.lookup_symbol.
  destruct (GetSymbolAddress P lib (name +:+ "Init")) as [f|].
  - match goal with |- context [cmLoadedCommand.ctor P f ?x] =>
      pose proof (proxy_ctor_spec f x) as Hc;
      destruct (cmLoadedCommand.ctor P f x) as [p w2]
    end.
    cbv zeta in Hc. cbn [fst snd] in Hc.
    destruct Hc as (-> & _ & _ & Hd & _ & Hr & Hl).
    unfold cmMakefile.AddScriptedCommand, cmMakefile.AddDefinition,
      cmMakefile.RemoveDefinition in *.
    wsimpl. rewrite Hd, Hr, Hl. split; [done|].
    eexists. split; [|done]. rewrite <- !app_assoc. reflexivity.
  - destruct (GetSymbolAddress P lib ("_" +:+ name +:+ "Init")) as [f|].
    + match goal with |- context [cmLoadedCommand.ctor P f ?x] =>
        pose proof (proxy_ctor_spec f x) as Hc;
        destruct (cmLoadedCommand.ctor P f x) as [p w2]
      end.
      cbv zeta in Hc. cbn [fst snd] in Hc.
      destruct Hc as (-> & _ & _ & Hd & _ & Hr & Hl).
      unfold cmMakefile.AddScriptedCommand, cmMakefile.AddDefinition,
        cmMakefile.RemoveDefinition in *.
      wsimpl. rewrite Hd, Hr, Hl. split; [done|].
      eexists. split; [|done]. rewrite <- !app_assoc. reflexivity.
    + unfold cmMakefile.AddDefinition, cmMakefile.RemoveDefinition.
      wsimpl. split; [done|].
      eexists. split; [|done]. rewrite <- !app_assoc. reflexivity.
Qed.
End DirectiveFacts.

(** C5.  When no directory of the expanded search path holds the module
    file, named by the two module affixes around [cm] and the command name,
    the directive fails, its message quotes that file name, the report
    variable is unset afterwards and nothing is registered. *)
Theorem C5_lookup_failure (P : Platform) (name : string)
    (locs : list string) (w : World) :
  let m := default ""%string (definitions w !! "CMAKE_SHARED_MODULE_PREFIX"%string)
           +:+ "cm" +:+ name
           +:+ default ""%string
                 (definitions w !! "CMAKE_SHARED_MODULE_SUFFIX"%string) in
  Forall (λ dir, FileExists P (dir +:+ "/" +:+ m) = false)
         (cmLoadCommandCommand.searchPath P locs) →
  let r := cmLoadCommandCommand.InitialPass P (name :: locs) w in
  r.1.1 = false ∧
  r.1.2 = "Attempt to load command failed from file " +:+ dquote +:+ m
            +:+ dquote ∧
  definitions r.2 !! ("CMAKE_LOADED_COMMAND_" +:+ name) = None ∧
  registry r.2 = registry w ∧ impls r.2 = impls w ∧ proxies r.2 = proxies w.
Proof.
  intros m Hmiss.
  change m with (cmLoadCommandCommand.moduleName name w) in *.
  unfold cmLoadCommandCommand.InitialPass. cbv zeta.
  rewrite moduleName_RemoveDefinition.
  rewrite (FindFile_miss P _ _ Hmiss).
  rewrite decide_True by reflexivity.
  unfold cmMakefile.RemoveDefinition. wsimpl.
  repeat split. apply lookup_delete_eq.
Qed.

Lemma C5_witness :
  Forall (λ dir, FileExists Demo.platform (dir +:+ "/" +:+ "libcmBaz.so")
                 = false)
         (cmLoadCommandCommand.searchPath Demo.platform ["./plugins"%string]) ∧
  (cmLoadCommandCommand.InitialPass Demo.platform
     ["Baz"%string; "./plugins"%string] Demo.start).1
    = (false,
       "Attempt to load command failed from file " +:+ dquote
         +:+ "libcmBaz.so" +:+ dquote) ∧
  definitions
    (cmLoadCommandCommand.InitialPass Demo.platform
       ["Baz"%string; "./plugins"%string] Demo.start).2
    !! "CMAKE_LOADED_COMMAND_Baz"%string = None.
Proof.
  assert (H : Forall (λ dir, FileExists Demo.platform
                               (dir +:+ "/" +:+ "libcmBaz.so") = false)
                (cmLoadCommandCommand.searchPath Demo.platform
                   ["./plugins"%string]))
    by (repeat constructor).
  split; [exact H|].
  destruct (C5_lookup_failure Demo.platform "Baz" ["./plugins"%string]
              Demo.start H) as (H1 & H2 & H3 & _).
  split; [|exact H3].
  rewrite (surjective_pairing (_.1)). by rewrite H1, H2.
Defined.

(** C4.  When the module is found and the library opens, the directive
    sets the report variable to the path found, and it does so right before
    the first symbol lookup: no symbol is looked up earlier.  The variable
    holds that path when the directive returns, also when no initializer is
    found and the directive fails. *)
Theorem C4_report_set_before_symbols (P : Platform) (name : string)
    (locs : list string) (w : World) (lib : nat) :
  let var := "CMAKE_LOADED_COMMAND_" +:+ name in
  let fullPath := FindFile P (cmLoadCommandCommand.moduleName name w)
                    (cmLoadCommandCommand.searchPath P locs) in
  let r := cmLoadCommandCommand.InitialPass P (name :: locs) w in
  fullPath ≠ ""%string → OpenLibrary P fullPath = Some lib →
  definitions r.2 !! var = Some fullPath ∧
  (∃ pre post,
     log r.2 = log w ++ pre ++ EvAddDefinition var fullPath
                 :: EvGetSymbolAddress lib (name +:+ "Init") :: post ∧
     symbol_lookups pre = []) ∧
  (GetSymbolAddress P lib (name +:+ "Init") = None →
   GetSymbolAddress P lib ("_" +:+ name +:+ "Init") = None →
   r.1.1 = false ∧ definitions r.2 !! var = Some fullPath).
Proof.
  intros var fullPath r Hne Hopen.
  destruct (directive_opened P name locs w lib Hne Hopen)
    as (Hd & tail & Hl & Hfound).
  fold r fullPath in Hd, Hl, Hfound.
  change (cmLoadCommandCommand.reportVar name) with var in *.
  assert (Hvar : definitions r.2 !! var = Some fullPath)
    by (rewrite Hd; apply lookup_insert_eq).
  split; [exact Hvar|]. split.
  - eexists [_; _; _], _. split; [rewrite Hl; reflexivity|reflexivity].
  - intros Hc Ha. rewrite Hc, Ha in Hfound.
    destruct Hfound as (Hr & _). by rewrite Hr.
Qed.

Lemma C4_witness :
  FindFile Demo.platform "libcmBar.so"
    (cmLoadCommandCommand.searchPath Demo.platform ["./plugins"%string])
    = "./plugins/libcmBar.so"%string ∧
  OpenLibrary Demo.platform "./plugins/libcmBar.so" = Some 2 ∧
  (cmLoadCommandCommand.InitialPass Demo.platform
     ["Bar"%string; "./plugins"%string] Demo.start).1.1 = false ∧
  definitions
    (cmLoadCommandCommand.InitialPass Demo.platform
       ["Bar"%string; "./plugins"%string] Demo.start).2
    !! "CMAKE_LOADED_COMMAND_Bar"%string = Some "./plugins/libcmBar.so"%string.
Proof.
  split; [vm_compute; reflexivity|]. split; [vm_compute; reflexivity|].
  assert (Hne : FindFile Demo.platform
                  (cmLoadCommandCommand.moduleName "Bar" Demo.start)
                  (cmLoadCommandCommand.searchPath Demo.platform
                     ["./plugins"%string]) ≠ ""%string)
    by (vm_compute; discriminate).
  assert (Hopen : OpenLibrary Demo.platform
                    (FindFile Demo.platform
                       (cmLoadCommandCommand.moduleName "Bar" Demo.start)
                       (cmLoadCommandCommand.searchPath Demo.platform
                          ["./plugins"%string])) = Some 2)
    by (vm_compute; reflexivity).
  destruct (C4_report_set_before_symbols Demo.platform "Bar"
              ["./plugins"%string] Demo.start 2 Hne Hopen) as (_ & _ & H).
  apply H; vm_compute; reflexivity.
Defined.

(** C6.  Once the library is open the canonical name, the command name
    followed by [Init], is looked up first.  The name with a leading
    underscore is looked up exactly when that lookup found nothing.  When
    both find nothing the directive fails with the message that no init
    function was found, and no command and no shared state is created or
    registered. *)
Theorem C6_symbol_resolution_order (P : Platform) (name : string)
    (locs : list string) (w : World) (lib : nat) :
  let fullPath := FindFile P (cmLoadCommandCommand.moduleName name w)
                    (cmLoadCommandCommand.searchPath P locs) in
  let canonical := name +:+ "Init" in
  let alternate := "_" +:+ name +:+ "Init" in
  let r := cmLoadCommandCommand.InitialPass P (name :: locs) w in
  fullPath ≠ ""%string → OpenLibrary P fullPath = Some lib →
  ∃ new,
    log r.2 = log w ++ new ∧
    symbol_lookups new =
      (lib, canonical)
      :: match GetSymbolAddress P lib canonical with
         | Some _ => []
         | None => [(lib, alternate)]
         end ∧
    (GetSymbolAddress P lib canonical = None →
     GetSymbolAddress P lib alternate = None →
     r.1 = (false,
            "Attempt to load command failed. No init function found."%string) ∧
     registrations new = [] ∧ foreign_calls new = [] ∧
     registry r.2 = registry w ∧ impls r.2 = impls w ∧
     proxies r.2 = proxies w).
Proof.
  intros fullPath canonical alternate r Hne Hopen.
  pose proof (directive_opened P name locs w lib Hne Hopen) as H.
  cbv zeta in H. subst canonical alternate.
  destruct H as (_ & tail & Hl & Hfound). fold r in Hl, Hfound.
  eexists. split; [exact Hl|]. split.
  - destruct (GetSymbolAddress P lib (name +:+ "Init")) as [f|].
    + destruct Hfound as (_ & -> & _). reflexivity.
    + destruct (GetSymbolAddress P lib ("_" +:+ name +:+ "Init")) as [f|].
      * destruct Hfound as (_ & -> & _). reflexivity.
      * destruct Hfound as (_ & -> & _). reflexivity.
  - intros Hc Ha. rewrite Hc, Ha in Hfound. rewrite Hc.
    destruct Hfound as (Hr & -> & Hreg & Hi & Hp). repeat split; done.
Qed.

Lemma C6_witness :
  (cmLoadCommandCommand.InitialPass Demo.platform
     ["Bar"%string; "./plugins"%string] Demo.start).1
    = (false,
       "Attempt to load command failed. No init function found."%string) ∧
  symbol_lookups
    (log (cmLoadCommandCommand.InitialPass Demo.platform
            ["Bar"%string; "./plugins"%string] Demo.start).2)
    = [(2, "BarInit"%string); (2, "_BarInit"%string)] ∧
  symbol_lookups
    (log (cmLoadCommandCommand.InitialPass Demo.platform
            ["Foo"%string; "./plugins"%string] Demo.start).2)
    = [(1, "FooInit"%string)].
Proof.
  assert (Hne : ∀ n, n = "Bar"%string ∨ n = "Foo"%string →
            FindFile Demo.platform
              (cmLoadCommandCommand.moduleName n Demo.start)
              (cmLoadCommandCommand.searchPath Demo.platform
                 ["./plugins"%string]) ≠ ""%string)
    by (intros n [-> | ->]; vm_compute; discriminate).
  destruct (C6_symbol_resolution_order Demo.platform "Bar"
              ["./plugins"%string] Demo.start 2 (Hne _ (or_introl eq_refl))
              ltac:(vm_compute; reflexivity)) as (new & Hl & Hs & Hfail).
  destruct (C6_symbol_resolution_order Demo.platform "Foo"
              ["./plugins"%string] Demo.start 1 (Hne _ (or_intror eq_refl))
              ltac:(vm_compute; reflexivity)) as (new' & Hl' & Hs' & _).
  split; [apply Hfail; vm_compute; reflexivity|].
  rewrite Hl, Hl'. split; [exact Hs|exact Hs'].
Defined.

(** C3, as amended.  The report variable is [CMAKE_LOADED_COMMAND_] followed
    by the command name as the directive spells it, without case
    conversion.  Every directive with a command name removes that variable
    before anything else; a directive that succeeds leaves it set to the
    path found; one that fails leaves it unset or set to the path of the
    library opened in this attempt, never to an older value.  No other
    variable is touched. *)
Theorem C3_report_variable_verbatim (P : Platform) (name : string)
    (locs : list string) (w : World) :
  let var := "CMAKE_LOADED_COMMAND_" +:+ name in
  let fullPath := FindFile P (cmLoadCommandCommand.moduleName name w)
                    (cmLoadCommandCommand.searchPath P locs) in
  let r := cmLoadCommandCommand.InitialPass P (name :: locs) w in
  (∃ rest, log r.2 = log w ++ EvRemoveDefinition var :: rest) ∧
  (if r.1.1
   then definitions r.2 !! var = Some fullPath ∧ fullPath ≠ ""%string
   else definitions r.2 !! var = None ∨
        (definitions r.2 !! var = Some fullPath ∧
         is_Some (OpenLibrary P fullPath))) ∧
  (∀ v, v ≠ var → definitions r.2 !! v = definitions w !! v).
Proof.
  intros var fullPath r.
  destruct (decide (fullPath = ""%string)) as [E|E];
    [|destruct (OpenLibrary P fullPath) as [lib|] eqn:Hopen].
  - destruct (directive_not_opened P name locs w (or_introl E))
      as (Hr & Hd & _ & _ & _ & Hl).
    fold r in Hr, Hd, Hl.
    change (cmLoadCommandCommand.reportVar name) with var in *.
    rewrite Hr, Hd. split; [exact Hl|]. split.
    + left. apply lookup_delete_eq.
    + intros v Hv. by rewrite lookup_delete_ne.
  - destruct (directive_opened P name locs w lib E Hopen)
      as (Hd & tail & Hl & Hfound).
    fold r fullPath in Hd, Hl, Hfound.
    change (cmLoadCommandCommand.reportVar name) with var in *.
    assert (Hvar : definitions r.2 !! var = Some fullPath)
      by (rewrite Hd; apply lookup_insert_eq).
    split; [eexists; rewrite Hl; reflexivity|]. split.
    + destruct (r.1.1); [done|]. right. split; [done|].
      eauto.
    + intros v Hv. rewrite Hd.
      by rewrite lookup_insert_ne, lookup_delete_ne.
  - destruct (directive_not_opened P name locs w (or_intror Hopen))
      as (Hr & Hd & _ & _ & _ & Hl).
    fold r in Hr, Hd, Hl.
    change (cmLoadCommandCommand.reportVar name) with var in *.
    rewrite Hr, Hd. split; [exact Hl|]. split.
    + left. apply lookup_delete_eq.
    + intros v Hv. by rewrite lookup_delete_ne.
Qed.

(** C3, as the specification states it, fails: [load_command(Foo ./plugins)]
    succeeds and the variable with the uppercased name is not set; the path
    is in the variable that keeps the spelling of the command name. *)
Lemma C3_counterexample :
  let r := cmLoadCommandCommand.InitialPass Demo.platform
             ["Foo"%string; "./plugins"%string] Demo.start in
  r.1.1 = true ∧
  spec_reportVar "Foo" = "CMAKE_LOADED_COMMAND_FOO"%string ∧
  definitions r.2 !! spec_reportVar "Foo" = None ∧
  definitions r.2 !! "CMAKE_LOADED_COMMAND_Foo"%string
    = Some "./plugins/libcmFoo.so"%string.
Proof. vm_compute. repeat split. Qed.

(** ** Shared ownership of the loaded state *)

Section Ownership.
Context (P : Platform).

(** Counting the command objects that point to [a]. *)
Lemma refs_insert a p c (m : gmap nat cmLoadedCommand) :
  size (filter (λ kv : nat * cmLoadedCommand, Impl kv.2 = Some a)
               (<[p := c]> m))
  = (if decide (Impl c = Some a) then 1 else 0)
    + size (filter (λ kv : nat * cmLoadedCommand, Impl kv.2 = Some a)
                   (delete p m)).
Proof.
  rewrite map_filter_insert. cbn [snd].
  destruct (decide (Impl c = Some a)) as [E|E]; [|done].
  rewrite <- insert_delete_eq, map_size_insert_None; [|apply lookup_delete_eq].
  by rewrite <- map_filter_delete.
Qed.

Lemma refs_lookup a p c (m : gmap nat cmLoadedCommand) :
  m !! p = Some c →
  size (filter (λ kv : nat * cmLoadedCommand, Impl kv.2 = Some a) m)
  = (if decide (Impl c = Some a) then 1 else 0)
    + size (filter (λ kv : nat * cmLoadedCommand, Impl kv.2 = Some a)
                   (delete p m)).
Proof.
  intros Hp. rewrite <- (insert_id m p c Hp) at 1. apply refs_insert.
Qed.

Lemma refs_from_actions_app a l b w :
  FinalActions w = l ++ [b] →
  refs_from_actions a w
  = length (filter (λ x, x = a) l) + (if decide (b = a) then 1 else 0).
Proof.
  intros E. unfold refs_from_actions. rewrite E, filter_app, length_app.
  f_equal. rewrite filter_cons, filter_nil. by destruct (decide (b = a)).
Qed.

Lemma teardowns_app a l1 l2 :
  teardowns a (l1 ++ l2) = teardowns a l1 + teardowns a l2.
Proof. unfold teardowns. by rewrite List.filter_app, length_app. Qed.

Lemma benign_refl a w : benign P a w w.
Proof. unfold benign. auto. Qed.

Lemma benign_trans a w1 w2 w3 :
  benign P a w1 w2 → benign P a w2 w3 → benign P a w1 w3.
Proof.
  intros (D1 & Q1 & T1) (D2 & Q2 & T2). split; [auto|]. split.
  - intros H3. rewrite (Q2 H3). apply Q1.
    destruct (impls w2 !! a) eqn:E; [eauto|].
    rewrite (D2 eq_refl) in H3. by destruct H3.
  - intros Hk H1. destruct (T1 Hk H1) as [H2 E1].
    destruct (T2 Hk H2) as [H3 E2]. split; [done|lia].
Qed.

(** Nothing happened to the shared objects and no teardown was called. *)
Lemma benign_same a w w' :
  impls w' = impls w → teardowns a (log w') = teardowns a (log w) →
  benign P a w w'.
Proof.
  intros Hi Hl. unfold benign, has_destructor, pending. rewrite Hi, Hl. auto.
Qed.

(** One object was written to and no teardown was called. *)
Lemma benign_update a b o this n w w' :
  impls w !! b = Some o →
  impls w' = <[b := MkShared this n]> (impls w) →
  (keeps_destructor P → is_Some (Destructor (obj o)) →
   is_Some (Destructor this)) →
  teardowns a (log w') = teardowns a (log w) →
  benign P a w w'.
Proof.
  intros Hb Hi Hk Hl. unfold benign, has_destructor, pending.
  rewrite Hi, Hl. destruct (decide (b = a)) as [->|Hne].
  - rewrite lookup_insert_eq, Hb. cbn [obj]. repeat split; auto. congruence.
  - rewrite lookup_insert_ne by done. auto.
Qed.

Lemma release_spec b w a n :
  let w' := shared_ptr.release P b w in
  proxies w' = proxies w ∧ FinalActions w' = FinalActions w ∧
  (accounted a (n + (if decide (b = a) then 1 else 0)) w →
   accounted a n w') ∧
  benign P a w w'.
Proof.
  unfold shared_ptr.release. destruct (impls w !! b) as [o|] eqn:Hb.
  - assert (Hlast :
      let w' := (let '(_, w0) := LoadedCommandImpl.dtor P b (obj o) w in
                 set_impls (delete b (impls w0)) w0) in
      use_count o ≤ 1 →
      proxies w' = proxies w ∧ FinalActions w' = FinalActions w ∧
      (accounted a (n + (if decide (b = a) then 1 else 0)) w →
       accounted a n w') ∧
      benign P a w w').
    { pose proof (Impl_dtor_spec P b (obj o) w) as Hd. cbv zeta in *.
      destruct (LoadedCommandImpl.dtor P b (obj o) w) as [t w1].
      cbn [fst snd] in Hd. destruct Hd as ((Hi & Hp & _ & Ha & _) & Hl).
      intros Huc. wsimpl. rewrite Hi. split; [done|]. split; [done|].
      unfold accounted, benign, has_destructor, pending. wsimpl.
      rewrite Hl, teardowns_app.
      destruct (decide (b = a)) as [->|Hne].
      - rewrite lookup_delete_eq, Hb. split.
        + intros [E _]. lia.
        + split; [done|]. split; [by intros [? ?]|].
          intros _ [f Hf]. rewrite Hf. split; [done|].
          unfold teardowns at 2. cbn. rewrite bool_decide_true by done.
          cbn. lia.
      - rewrite lookup_delete_ne by done. split; [by rewrite Nat.add_0_r|].
        assert (E : teardowns a
                  match Destructor (obj o) with
                  | Some f => [EvForeign KDestructor b f
                      (sigtable (SignalHandlerGuard.ctor P (Name (obj o)) w))
                      (LastName (SignalHandlerGuard.ctor P (Name (obj o)) w))]
                  | None => []
                  end = 0).
        { destruct (Destructor (obj o)); [|done].
          unfold teardowns. cbn. by rewrite bool_decide_false. }
        rewrite E, Nat.add_0_r. auto. }
    cbv zeta in Hlast.
    destruct (use_count o) as [|[|k]] eqn:Huc; [apply Hlast; lia..|].
    clear Hlast. wsimpl. split; [done|]. split; [done|]. split.
    + unfold accounted. wsimpl. destruct (decide (b = a)) as [->|Hne].
      * rewrite lookup_insert_eq, Hb. cbn. lia.
      * rewrite lookup_insert_ne by done. by rewrite Nat.add_0_r.
    + eapply benign_update; [exact Hb|reflexivity|auto|reflexivity].
  - wsimpl. split; [done|]. split; [done|]. split.
    + unfold accounted. wsimpl. destruct (decide (b = a)) as [->|Hne].
      * rewrite Hb. lia.
      * by rewrite Nat.add_0_r.
    + by apply benign_same.
Qed.

Lemma accounted_impls a n w w' :
  impls w' = impls w → accounted a n w → accounted a n w'.
Proof. unfold accounted. by intros ->. Qed.

Lemma acquire_spec b w a n :
  let w' := shared_ptr.acquire b w in
  proxies w' = proxies w ∧ FinalActions w' = FinalActions w ∧
  log w' = log w ∧
  (accounted a n w → (b = a → 0 < n) →
   accounted a (n + (if decide (b = a) then 1 else 0)) w') ∧
  benign P a w w'.
Proof.
  unfold shared_ptr.acquire. destruct (impls w !! b) as [o|] eqn:Hb.
  - wsimpl. split; [done|]. split; [done|]. split; [done|]. split.
    + unfold accounted. wsimpl. destruct (decide (b = a)) as [->|Hne].
      * rewrite lookup_insert_eq, Hb. cbn. lia.
      * rewrite lookup_insert_ne by done. by rewrite Nat.add_0_r.
    + eapply benign_update; [exact Hb|reflexivity|auto|reflexivity].
  - wsimpl. split; [done|]. split; [done|]. split; [done|]. split.
    + unfold accounted. wsimpl. destruct (decide (b = a)) as [->|Hne].
      * rewrite Hb. intros -> H. specialize (H eq_refl). lia.
      * by rewrite Nat.add_0_r.
    + by apply benign_same.
Qed.

Lemma fresh_proxy w : proxies w !! fresh (dom (proxies w)) = None.
Proof. apply not_elem_of_dom, is_fresh. Qed.

Lemma Clone_step p w a :
  counted a w →
  counted a (cmLoadedCommand.Clone p w).2 ∧
  benign P a w (cmLoadedCommand.Clone p w).2.
Proof.
  intros Hc. unfold cmLoadedCommand.Clone.
  destruct (proxies w !! p) as [c|] eqn:Hp;
    [|split; [done|apply benign_refl]].
  cbn [snd]. pose proof (fresh_proxy w) as Hq.
  set (q := fresh (dom (proxies w))) in *.
  destruct (Impl c) as [b|] eqn:Hi.
  - destruct (acquire_spec b w a (holders a w))
      as (Hp1 & Ha1 & _ & Hacc & Hben).
    split.
    + unfold counted, holders, refs_from_proxies, refs_from_actions in *.
      wsimpl. rewrite Hp1, Ha1, refs_insert, (delete_id _ _ Hq). cbn [Impl].
      eapply accounted_impls; [reflexivity|].
      replace (_ + _ + _) with
        (size (filter (λ kv : nat * cmLoadedCommand, Impl kv.2 = Some a)
                      (proxies w))
         + length (filter (λ b0, b0 = a) (FinalActions w))
         + (if decide (b = a) then 1 else 0)).
      2:{ destruct (decide (b = a)) as [->|Hne].
          - rewrite decide_True by done. lia.
          - rewrite decide_False by congruence. lia. }
      apply Hacc; [done|]. intros ->.
      rewrite (refs_lookup a p c _ Hp), decide_True by done. lia.
    + eapply benign_trans; [exact Hben|]. by apply benign_same.
  - split; [|by apply benign_same].
    unfold counted, holders, refs_from_proxies, refs_from_actions in *.
    wsimpl. rewrite refs_insert, (delete_id _ _ Hq). cbn [Impl].
    rewrite decide_False by done. by eapply accounted_impls.
Qed.

Lemma teardowns_snoc_other a l e :
  is_teardown a e = false → teardowns a (l ++ [e]) = teardowns a l.
Proof.
  intros E. rewrite teardowns_app. unfold teardowns at 2. cbn.
  rewrite E. cbn. lia.
Qed.

Lemma Invoke_step p args w a :
  counted a w →
  counted a (cmLoadedCommand.InitialPass P p args w).2 ∧
  benign P a w (cmLoadedCommand.InitialPass P p args w).2.
Proof.
  intros Hcnt.
  destruct (proxies w !! p) as [c|] eqn:Hp.
  2:{ unfold cmLoadedCommand.InitialPass. rewrite Hp.
      split; [done|apply benign_refl]. }
  destruct (Impl c) as [b|] eqn:Hi.
  2:{ unfold cmLoadedCommand.InitialPass. rewrite Hp, Hi.
      split; [done|by apply benign_same]. }
  destruct (impls w !! b) as [o|] eqn:Hb.
  2:{ unfold cmLoadedCommand.InitialPass. rewrite Hp, Hi, Hb.
      split; [done|by apply benign_same]. }
  pose proof (proxy_InitialPass_spec P p args w c b o Hp Hi Hb) as H.
  cbv zeta in H.
  destruct (InitialPass (obj o)) as [f|] eqn:Hf.
  2:{ rewrite H. split; [done|apply benign_refl]. }
  destruct H as (_ & Himpls & Hacts & Hlog & [msg Hprox] & _).
  set (w' := (cmLoadedCommand.InitialPass P p args w).2) in *.
  match type of Himpls with
  | context [schedules ?rc ?this] =>
      set (sched := schedules rc this) in *;
      assert (Hkeep : keeps_destructor P → is_Some (Destructor (obj o)) →
                      is_Some (Destructor this))
        by (intros [Hk _]; apply Hk)
  end.
  assert (Htd : teardowns a (log w') = teardowns a (log w)).
  { rewrite Hlog, teardowns_app. unfold teardowns at 2.
    destruct sched; cbn; lia. }
  split; [|eapply benign_update; eauto].
  unfold counted, holders, refs_from_proxies, refs_from_actions in *.
  rewrite Hprox, Hacts, refs_insert, filter_app, length_app. cbn [Impl].
  rewrite (refs_lookup a p c _ Hp), Hi in Hcnt.
  unfold accounted in *. rewrite Himpls.
  destruct (decide (b = a)) as [->|Hne].
  - rewrite lookup_insert_eq. rewrite Hb in Hcnt.
    rewrite !decide_True in * by done. cbn [use_count].
    destruct sched; [rewrite filter_cons, decide_True by done|];
      cbn [length filter]; rewrite ?filter_nil; cbn [length]; lia.
  - rewrite lookup_insert_ne by done.
    rewrite !decide_False in * by congruence.
    replace (length (filter (λ b0, b0 = a) (if sched then [b] else [])))
      with 0; [by rewrite Nat.add_0_r|].
    destruct sched; [|done]. by rewrite filter_cons, decide_False.
Qed.

Lemma Destroy_step p w a :
  counted a w →
  counted a (cmLoadedCommand.dtor P p w) ∧
  benign P a w (cmLoadedCommand.dtor P p w).
Proof.
  intros Hcnt. unfold cmLoadedCommand.dtor.
  destruct (proxies w !! p) as [c|] eqn:Hp;
    [|split; [done|apply benign_refl]].
  cbv zeta. set (w1 := set_proxies (delete p (proxies w)) w).
  assert (Hb1 : benign P a w w1) by (by apply benign_same).
  unfold counted, holders, refs_from_proxies in Hcnt.
  rewrite (refs_lookup a p c _ Hp) in Hcnt.
  destruct (Impl c) as [b|] eqn:Hi.
  - destruct (release_spec b w1 a (holders a w1))
      as (Hp2 & Ha2 & Hacc & Hben). cbv zeta in *.
    split; [|eapply benign_trans; [exact Hb1|exact Hben]].
    unfold counted, holders, refs_from_proxies, refs_from_actions in *.
    rewrite Hp2, Ha2. apply Hacc.
    apply (accounted_impls a _ w w1 eq_refl). subst w1. wsimpl.
    destruct (decide (b = a)) as [->|Hne];
      [rewrite decide_True in Hcnt by done
      |rewrite decide_False in Hcnt by congruence];
      match goal with
      | |- accounted a ?n _ =>
          match type of Hcnt with
          | accounted a ?m _ => replace n with m by lia
          end
      end; exact Hcnt.
  - split; [|done]. rewrite decide_False in Hcnt by done.
    unfold counted, holders, refs_from_proxies. subst w1. wsimpl.
    by eapply accounted_impls.
Qed.
Lemma run_action_spec b w a :
  let w' := cmMakefile.run_action P b w in
  proxies w' = proxies w ∧ FinalActions w' = FinalActions w ∧
  (∀ n, accounted a n w → accounted a n w') ∧
  benign P a w w'.
Proof.
  unfold cmMakefile.run_action. destruct (impls w !! b) as [o|] eqn:Hb.
  - pose proof (DoFinalPass_spec P b (obj o) w) as H. cbv zeta in H.
    destruct (LoadedCommandImpl.DoFinalPass P b (obj o) w) as [this w1].
    cbn [fst snd] in H. destruct H as ((Hi & Hp & _ & Ha & _) & H).
    unfold shared_ptr.store. rewrite Hi, Hb. wsimpl.
    split; [done|]. split; [done|]. split.
    + intros n. unfold accounted. wsimpl.
      destruct (decide (b = a)) as [->|Hne].
      * by rewrite lookup_insert_eq, Hb.
      * by rewrite lookup_insert_ne.
    + eapply benign_update; [exact Hb|reflexivity|..].
      * intros [_ Hk] Hd. destruct (FinalPass (obj o)) as [f|].
        -- destruct H as (-> & _). by apply Hk.
        -- by destruct H as (-> & _).
      * wsimpl. destruct (FinalPass (obj o)) as [f|].
        -- destruct H as (_ & _ & _ & ->). by apply teardowns_snoc_other.
        -- by destruct H as (_ & _ & _ & ->).
  - wsimpl. split; [done|]. split; [done|]. split; [done|].
    by apply benign_same.
Qed.

Lemma run_actions_spec l a :
  ∀ w,
    let w' := foldl (λ w b, cmMakefile.run_action P b w) w l in
    proxies w' = proxies w ∧ FinalActions w' = FinalActions w ∧
    (∀ n, accounted a n w → accounted a n w') ∧
    benign P a w w'.
Proof.
  induction l as [|b l IH]; intros w; cbn [foldl].
  - split; [done|]. split; [done|]. split; [done|]. apply benign_refl.
  - destruct (run_action_spec b w a) as (Hp1 & Ha1 & Hacc1 & Hb1).
    destruct (IH (cmMakefile.run_action P b w)) as (Hp2 & Ha2 & Hacc2 & Hb2).
    cbv zeta in *. rewrite Hp2, Ha2.
    split; [done|]. split; [done|]. split; [auto|].
    eapply benign_trans; [exact Hb1|exact Hb2].
Qed.

Lemma release_all_spec l a :
  ∀ w n,
    let w' := foldl (λ w b, shared_ptr.release P b w) w l in
    proxies w' = proxies w ∧ FinalActions w' = FinalActions w ∧
    (accounted a (n + length (filter (λ x, x = a) l)) w → accounted a n w') ∧
    benign P a w w'.
Proof.
  induction l as [|b l IH]; intros w n; cbn [foldl].
  - rewrite filter_nil. cbn [length]. rewrite Nat.add_0_r.
    split; [done|]. split; [done|]. split; [done|]. apply benign_refl.
  - destruct (release_spec b w a (n + length (filter (λ x, x = a) l)))
      as (Hp1 & Ha1 & Hacc1 & Hb1).
    destruct (IH (shared_ptr.release P b w) n) as (Hp2 & Ha2 & Hacc2 & Hb2).
    cbv zeta in *. rewrite Hp2, Ha2.
    split; [done|]. split; [done|]. split.
    + intros H. apply Hacc2, Hacc1. rewrite filter_cons in H.
      destruct (decide (b = a)); cbn [length] in H;
        match goal with
        | |- accounted a ?k _ =>
            match type of H with
            | accounted a ?m _ => replace k with m by lia
            end
        end; exact H.
    + eapply benign_trans; [exact Hb1|exact Hb2].
Qed.

(** Every operation of the host keeps the count of [a] right and is benign
    for it. *)
Lemma step_spec op w a :
  counted a w → counted a (step P op w) ∧ benign P a w (step P op w).
Proof.
  intros Hcnt. destruct op as [p|p args|p| |]; cbn [step].
  - by apply Clone_step.
  - by apply Invoke_step.
  - by apply Destroy_step.
  - unfold cmMakefile.RunFinalActions.
    destruct (run_actions_spec (FinalActions w) a w) as (Hp & Ha & Hacc & Hb).
    cbv zeta in *. split; [|done].
    unfold counted, holders, refs_from_proxies, refs_from_actions in *.
    rewrite Hp, Ha. by apply Hacc.
  - unfold cmMakefile.DiscardFinalActions.
    destruct (release_all_spec (FinalActions w) a (set_FinalActions [] w)
                (refs_from_proxies a w)) as (Hp & Ha & Hacc & Hb).
    cbv zeta in *. wsimpl. split.
    + unfold counted, holders, refs_from_proxies, refs_from_actions in *.
      rewrite Hp, Ha, filter_nil. cbn [length]. rewrite Nat.add_0_r.
      apply Hacc. by apply (accounted_impls a _ w).
    + eapply benign_trans; [|exact Hb]. by apply benign_same.
Qed.

Lemma run_spec ops a :
  ∀ w, counted a w → counted a (run P ops w) ∧ benign P a w (run P ops w).
Proof.
  unfold run. induction ops as [|op ops IH]; intros w Hcnt; cbn [foldl].
  - split; [done|apply benign_refl].
  - destruct (step_spec op w a Hcnt) as [Hc1 Hb1].
    destruct (IH _ Hc1) as [Hc2 Hb2].
    split; [done|]. eapply benign_trans; [exact Hb1|exact Hb2].
Qed.

(** An object with a shared pointer to it exists. *)
Lemma counted_alive a w :
  counted a w → (is_Some (impls w !! a) ↔ holders a w ≠ 0).
Proof.
  unfold counted, accounted. destruct (impls w !! a) as [o|].
  - intros [_ H]. split; [lia|eauto].
  - intros ->. split; [by intros [? ?]|done].
Qed.

(** Operations other than discarding the queue leave the queued closures
    in place. *)
Lemma step_keeps_actions op w :
  is_discard op = false →
  ∃ l, FinalActions (step P op w) = FinalActions w ++ l.
Proof.
  destruct op as [p|p args|p| |]; cbn [step is_discard]; [..|done]; intros _.
  - exists []. rewrite app_nil_r. unfold cmLoadedCommand.Clone.
    destruct (proxies w !! p) as [c|]; [|done]. wsimpl.
    destruct (Impl c) as [b|]; [|done].
    by destruct (acquire_spec b w 0 0) as (_ & -> & _).
  - destruct (proxies w !! p) as [c|] eqn:Hp.
    2:{ unfold cmLoadedCommand.InitialPass. rewrite Hp.
        exists []. by rewrite app_nil_r. }
    destruct (Impl c) as [b|] eqn:Hi.
    2:{ unfold cmLoadedCommand.InitialPass. rewrite Hp, Hi.
        exists []. by rewrite app_nil_r. }
    destruct (impls w !! b) as [o|] eqn:Hb.
    2:{ unfold cmLoadedCommand.InitialPass. rewrite Hp, Hi, Hb.
        exists []. by rewrite app_nil_r. }
    pose proof (proxy_InitialPass_spec P p args w c b o Hp Hi Hb) as H.
    cbv zeta in H. destruct (InitialPass (obj o)) as [f|].
    + destruct H as (_ & _ & -> & _). eauto.
    + rewrite H. exists []. by rewrite app_nil_r.
  - exists []. rewrite app_nil_r. unfold cmLoadedCommand.dtor.
    destruct (proxies w !! p) as [c|]; [|done].
    destruct (Impl c) as [b|]; [|done].
    by destruct (release_spec b (set_proxies (delete p (proxies w)) w) 0 0)
      as (_ & -> & _).
  - exists []. rewrite app_nil_r. unfold cmMakefile.RunFinalActions.
    by destruct (run_actions_spec (FinalActions w) 0 w) as (_ & -> & _).
Qed.

Lemma run_keeps_actions ops :
  ∀ w, forallb (λ op, negb (is_discard op)) ops = true →
       ∃ l, FinalActions (run P ops w) = FinalActions w ++ l.
Proof.
  unfold run. induction ops as [|op ops IH]; intros w Hops; cbn [foldl].
  - exists []. by rewrite app_nil_r.
  - cbn [forallb] in Hops. apply andb_prop in Hops as [Hop Hops].
    apply negb_true_iff in Hop.
    destruct (step_keeps_actions op w Hop) as [l1 E1].
    destruct (IH (step P op w) Hops) as [l2 E2].
    exists (l1 ++ l2). by rewrite E2, E1, app_assoc.
Qed.
End Ownership.

(** ** The count of shared pointers is an invariant of the whole host *)

Section Reachable.
Context (P : Platform).

(** What a load directive does to the objects: nothing, or one new shared
    state with one new command object pointing to it. *)
Lemma directive_objects args w :
  let w' := (cmLoadCommandCommand.InitialPass P args w).2 in
  FinalActions w' = FinalActions w ∧
  ((impls w' = impls w ∧ proxies w' = proxies w) ∨
   ∃ this,
     impls w' = <[fresh (dom (impls w)) := MkShared this 1]> (impls w) ∧
     proxies w' = <[fresh (dom (proxies w))
                    := MkProxy (Some (fresh (dom (impls w)))) ""%string]>
                    (proxies w)).
Proof.
  unfold cmLoadCommandCommand.InitialPass.
  destruct args as [|name locs]; [by auto|]. cbv zeta.
  destruct (decide _); [by auto|].
  destruct (OpenLibrary P _) as [lib|]; [|by auto].
  unfold cmLoadCommandCommand.lookup_symbol.
  assert (Hctor : ∀ f x,
            FinalActions x = FinalActions w → impls x = impls w →
            proxies x = proxies w →
            let w' := (let '(proxy, w0) := cmLoadedCommand.ctor P f x in
                       (true, ""%string,
                        cmMakefile.AddScriptedCommand name proxy w0)).2 in
            FinalActions w' = FinalActions w ∧
            ((impls w' = impls w ∧ proxies w' = proxies w) ∨
             ∃ this,
               impls w' = <[fresh (dom (impls w)) := MkShared this 1]> (impls w) ∧
               proxies w' = <[fresh (dom (proxies w))
                      := MkProxy (Some (fresh (dom (impls w)))) ""%string]>
                      (proxies w))).
  { intros f x Ha Hi Hp. pose proof (proxy_ctor_spec P f x) as Hc.
    cbv zeta in Hc. destruct (cmLoadedCommand.ctor P f x) as [p w2].
    cbn [fst snd] in Hc. destruct Hc as (-> & Hi2 & Hp2 & _ & Ha2 & _).
    unfold cmMakefile.AddScriptedCommand. wsimpl.
    rewrite Ha2, Hi2, Hp2, Ha, Hi, Hp. split; [done|]. right. eauto. }
  destruct (GetSymbolAddress P lib (name +:+ "Init")) as [f|].
  - by apply Hctor.
  - destruct (GetSymbolAddress P lib ("_" +:+ name +:+ "Init")) as [f|].
    + by apply Hctor.
    + by auto.
Qed.

(** A load directive keeps the count of every shared state right. *)
Lemma directive_counted args w :
  (∀ a, counted a w) →
  ∀ a, counted a (cmLoadCommandCommand.InitialPass P args w).2.
Proof.
  intros Hall a. pose proof (directive_objects args w) as H. cbv zeta in H.
  destruct H as [Ha [[Hi Hp]|(this & Hi & Hp)]];
    unfold counted, accounted, holders, refs_from_proxies, refs_from_actions.
  - rewrite Ha, Hi, Hp. apply Hall.
  - rewrite Ha, Hi, Hp, refs_insert, (delete_id _ _ (fresh_proxy w)).
    cbn [Impl]. set (a0 := fresh (dom (impls w))).
    destruct (decide (a0 = a)) as [<-|Hne].
    + rewrite lookup_insert_eq, decide_True by done. cbn [use_count].
      pose proof (Hall a0) as H0.
      unfold counted, accounted, holders, refs_from_proxies,
        refs_from_actions in H0.
      assert (E : impls w !! a0 = None)
        by (apply not_elem_of_dom, is_fresh).
      rewrite E in H0. lia.
    + rewrite lookup_insert_ne, decide_False by congruence. apply Hall.
Qed.

(** It holds in a process without command objects. *)
Lemma counted_start a w :
  impls w = ∅ → proxies w = ∅ → FinalActions w = [] → counted a w.
Proof.
  intros Hi Hp Ha.
  unfold counted, accounted, holders, refs_from_proxies, refs_from_actions.
  rewrite Hi, Hp, Ha, lookup_empty, map_filter_empty, map_size_empty.
  reflexivity.
Qed.
End Reachable.

(** ** The claims on ownership *)

(** C7.  A clone is a new command object ([q], an address not in use) that
    points to the same shared state as the original; cloning calls nothing
    in the plugin, so the initializer is not run again, and the table is the
    same with one more shared pointer to it.  Through any sequence of host
    operations, for plugin code that keeps its teardown entry point, the
    teardown of [a] has been called once more exactly when no shared
    pointer to [a] is left, and not at all while one is left; the state
    exists exactly as long as a shared pointer to it is left. *)
Theorem C7_clone_shares_teardown_once (P : Platform) (w : World) (p a : nat)
    (c : cmLoadedCommand) (o : SharedImpl) (ops : list HostOp) :
  keeps_destructor P → counted a w →
  proxies w !! p = Some c → Impl c = Some a → impls w !! a = Some o →
  is_Some (Destructor (obj o)) →
  (let r := cmLoadedCommand.Clone p w in
   ∃ q, r.1 = Some q ∧ q ≠ p ∧ proxies w !! q = None ∧
        proxies r.2 !! q = Some (MkProxy (Some a) ""%string) ∧
        proxies r.2 !! p = Some c ∧
        impls r.2 !! a = Some (MkShared (obj o) (S (use_count o))) ∧
        log r.2 = log w) ∧
  (let w' := run P ops w in
   teardowns a (log w')
     = teardowns a (log w) + (if decide (holders a w' = 0) then 1 else 0) ∧
   (is_Some (impls w' !! a) ↔ holders a w' ≠ 0)).
Proof.
  intros Hkeep Hcnt Hp Hi Ho Hd. split.
  - unfold cmLoadedCommand.Clone. rewrite Hp, Hi. cbv zeta.
    pose proof (fresh_proxy w) as Hq.
    exists (fresh (dom (proxies w))).
    assert (Hne : fresh (dom (proxies w)) ≠ p) by congruence.
    unfold shared_ptr.acquire. rewrite Ho. wsimpl.
    rewrite !lookup_insert_eq, lookup_insert_ne by done. done.
  - cbv zeta. destruct (run_spec P ops a w Hcnt) as [Hcnt' (_ & _ & HT)].
    pose proof (counted_alive a _ Hcnt') as Halive.
    split; [|exact Halive].
    assert (Hhas : has_destructor a w)
      by (unfold has_destructor; by rewrite Ho).
    destruct (HT Hkeep Hhas) as [_ E].
    unfold pending in E. rewrite Ho in E.
    destruct (impls (run P ops w) !! a) as [o'|].
    + rewrite decide_False by (apply Halive; eauto). lia.
    + rewrite decide_True; [lia|].
      destruct (decide (holders a (run P ops w) = 0)) as [?|Hn]; [done|].
      apply Halive in Hn. by destruct Hn.
Qed.

Lemma Demo_keeps_destructor : keeps_destructor Demo.platform.
Proof.
  split; [|done]. intros f this h argc argv Hd. cbn.
  unfold Demo.FooInitialPass.
  destruct (decide (argv = ["bad"%string])); [done|].
  by destruct (decide (argv = ["quiet"%string])).
Qed.

Lemma C7_witness :
  counted 0 Demo.loaded ∧
  (cmLoadedCommand.Clone 0 Demo.loaded).1 = Some 1 ∧
  teardowns 0 (log (run Demo.platform
                      [OpClone 0; OpClone 0; OpDestroy 1; OpDestroy 0]
                      Demo.loaded)) = 0 ∧
  teardowns 0 (log (run Demo.platform
                      [OpClone 0; OpClone 0; OpDestroy 1; OpDestroy 0;
                       OpDestroy 2]
                      Demo.loaded)) = 1.
Proof.
  assert (Hcnt : counted 0 Demo.loaded)
    by (unfold counted, accounted; vm_compute; split; [reflexivity|constructor]).
  assert (Hp : proxies Demo.loaded !! 0 = Some (MkProxy (Some 0) ""%string))
    by (vm_compute; reflexivity).
  assert (Ho : impls Demo.loaded !! 0
               = Some (MkShared (MkInfo (Some 11) (Some 12) (Some 13)
                                        (Some "Foo"%string) None) 1))
    by (vm_compute; reflexivity).
  split; [exact Hcnt|].
  destruct (C7_clone_shares_teardown_once Demo.platform Demo.loaded 0 0 _ _
              [OpClone 0; OpClone 0; OpDestroy 1; OpDestroy 0]
              Demo_keeps_destructor Hcnt Hp eq_refl Ho
              (ex_intro _ 13 eq_refl)) as [(q & Hq & _) [H1 _]].
  destruct (C7_clone_shares_teardown_once Demo.platform Demo.loaded 0 0 _ _
              [OpClone 0; OpClone 0; OpDestroy 1; OpDestroy 0; OpDestroy 2]
              Demo_keeps_destructor Hcnt Hp eq_refl Ho
              (ex_intro _ 13 eq_refl)) as [_ [H2 _]].
  split; [vm_compute; reflexivity|].
  split; [rewrite H1|rewrite H2]; vm_compute; reflexivity.
Defined.

(** C10.  When the immediate pass on a command object for [a] queued the
    deferred pass, the closure holds one more shared pointer to [a].  As
    long as the queue is not discarded the closure stays queued, the state
    exists and its teardown is not called, whatever the host does with the
    command objects, also when none of them is left.  Once the queue is
    discarded the state exists exactly when a command object still points
    to it. *)
Theorem C10_deferred_action_owns_state (P : Platform) (w : World)
    (p a : nat) (args : list string) (c : cmLoadedCommand) (o : SharedImpl)
    (ops : list HostOp) :
  counted a w →
  proxies w !! p = Some c → Impl c = Some a → impls w !! a = Some o →
  let w1 := (cmLoadedCommand.InitialPass P p args w).2 in
  FinalActions w1 = FinalActions w ++ [a] →
  forallb (λ op, negb (is_discard op)) ops = true →
  let w2 := run P ops w1 in
  let w3 := cmMakefile.DiscardFinalActions P w2 in
  (∃ o1, impls w1 !! a = Some o1 ∧ use_count o1 = S (use_count o)) ∧
  a ∈ FinalActions w2 ∧
  is_Some (impls w2 !! a) ∧
  teardowns a (log w2) = teardowns a (log w) ∧
  (is_Some (impls w3 !! a) ↔ refs_from_proxies a w2 ≠ 0).
Proof.
  intros Hcnt Hp Hi Ho w1 Hq Hops w2 w3.
  destruct (Invoke_step P p args w a Hcnt) as [Hcnt1 Hben1]. fold w1 in Hcnt1, Hben1.
  destruct (run_spec P ops a w1 Hcnt1) as [Hcnt2 Hben2]. fold w2 in Hcnt2, Hben2.
  destruct (step_spec P OpDiscardFinalActions w2 a Hcnt2) as [Hcnt3 _].
  cbn [step] in Hcnt3. fold w3 in Hcnt3.
  destruct (run_keeps_actions P ops w1 Hops) as [l Hl]. fold w2 in Hl.
  assert (Hin : a ∈ FinalActions w2).
  { rewrite Hl, Hq. apply elem_of_app. left. apply elem_of_app. right.
    by apply list_elem_of_singleton. }
  assert (Halive2 : is_Some (impls w2 !! a)).
  { apply (counted_alive a w2 Hcnt2). unfold holders, refs_from_actions.
    assert (Hin' : a ∈ filter (λ x, x = a) (FinalActions w2))
      by (by apply list_elem_of_filter).
    destruct (filter (λ x, x = a) (FinalActions w2)); [by inversion Hin'|].
    cbn [length]. lia. }
  split; [|split; [exact Hin|split; [exact Halive2|split]]].
  - pose proof (proxy_InitialPass_spec P p args w c a o Hp Hi Ho) as H.
    cbv zeta in H. fold w1 in H.
    destruct (InitialPass (obj o)) as [f|].
    + destruct H as (_ & Himpls & Hacts & _). rewrite Hacts in Hq.
      apply app_inv_head in Hq.
      match type of Hq with
      | (if ?s then _ else _) = _ => destruct s; [|discriminate Hq]
      end.
      eexists. rewrite Himpls, lookup_insert_eq. split; reflexivity.
    + assert (E : w1 = w) by (subst w1; by rewrite H). rewrite E in Hq.
      rewrite <- (app_nil_r (FinalActions w)) in Hq at 1.
      apply app_inv_head in Hq. discriminate Hq.
  - destruct (benign_trans P a w w1 w2 Hben1 Hben2) as (_ & HQ & _). auto.
  - rewrite (counted_alive a w3 Hcnt3).
    unfold w3, cmMakefile.DiscardFinalActions.
    destruct (release_all_spec P (FinalActions w2) a (set_FinalActions [] w2) 0)
      as (Hp3 & Ha3 & _).
    cbv zeta in *. unfold holders, refs_from_proxies, refs_from_actions.
    rewrite Hp3, Ha3. wsimpl. rewrite filter_nil. cbn [length].
    by rewrite Nat.add_0_r.
Qed.

Lemma C10_witness :
  counted 0 Demo.loaded ∧
  FinalActions Demo.after_go = [0] ∧
  refs_from_proxies 0 (run Demo.platform [OpDestroy 0] Demo.after_go) = 0 ∧
  is_Some (impls (run Demo.platform [OpDestroy 0] Demo.after_go) !! 0) ∧
  teardowns 0 (log (run Demo.platform [OpDestroy 0] Demo.after_go)) = 0 ∧
  teardowns 0 (log (run Demo.platform [OpDestroy 0; OpDiscardFinalActions]
                      Demo.after_go)) = 1.
Proof.
  assert (Hcnt : counted 0 Demo.loaded)
    by (unfold counted, accounted; vm_compute; split; [reflexivity|constructor]).
  assert (Hp : proxies Demo.loaded !! 0 = Some (MkProxy (Some 0) ""%string))
    by (vm_compute; reflexivity).
  assert (Ho : impls Demo.loaded !! 0
               = Some (MkShared (MkInfo (Some 11) (Some 12) (Some 13)
                                        (Some "Foo"%string) None) 1))
    by (vm_compute; reflexivity).
  assert (Hq : FinalActions
                 (cmLoadedCommand.InitialPass Demo.platform 0 ["go"%string]
                    Demo.loaded).2 = FinalActions Demo.loaded ++ [0])
    by (vm_compute; reflexivity).
  destruct (C10_deferred_action_owns_state Demo.platform Demo.loaded 0 0
              ["go"%string] _ _ [OpDestroy 0] Hcnt Hp eq_refl Ho Hq eq_refl)
    as (_ & _ & Halive & Htd & _).
  split; [exact Hcnt|]. split; [vm_compute; reflexivity|].
  split; [vm_compute; reflexivity|]. split; [exact Halive|].
  split; [exact Htd|vm_compute; reflexivity].
Defined.

(** * Further properties of the code *)

(** ** The load directive *)

Section DirectiveMore.
Context (P : Platform).

Lemma World_eq (w1 w2 : World) :
  heap w1 = heap w2 → faults w1 = faults w2 → sigtable w1 = sigtable w2 →
  LastName w1 = LastName w2 → impls w1 = impls w2 → proxies w1 = proxies w2 →
  definitions w1 = definitions w2 → FinalActions w1 = FinalActions w2 →
  registry w1 = registry w2 → log w1 = log w2 → w1 = w2.
Proof. destruct w1, w2. cbn. by intros -> -> -> -> -> -> -> -> -> ->. Qed.

(** The world a directive leaves when it got as far as opening the
    library, field by field. *)
Lemma proxy_ctor_process init w :
  let r := cmLoadedCommand.ctor P init w in
  heap r.2 = (code_init P init LoadedCommandImpl.zero (heap w)).2 ∧
  faults r.2 = faults w ∧ sigtable r.2 = sigtable w ∧
  LastName r.2 = LastName w.
Proof.
  unfold cmLoadedCommand.ctor. cbv zeta.
  pose proof (Impl_ctor_spec P (fresh (dom (impls w))) init w) as H.
  cbv zeta in H.
  destruct (LoadedCommandImpl.ctor P (fresh (dom (impls w))) init w)
    as [this w1].
  cbn [fst snd] in H. destruct H as (_ & Hh & _ & Hf & Hs & Hn & _).
  wsimpl. by rewrite Hh, Hf, Hs, Hn.
Qed.

Lemma directive_process args w :
  let r := cmLoadCommandCommand.InitialPass P args w in
  faults r.2 = faults w ∧ sigtable r.2 = sigtable w ∧
  LastName r.2 = LastName w.
Proof.
  cbv zeta. unfold cmLoadCommandCommand.InitialPass.
  destruct args as [|name locs]; [done|]. cbv zeta.
  destruct (decide _); [done|].
  destruct (OpenLibrary P _) as [lib|]; [|done].
  unfold cmLoadCommandCommand.lookup_symbol.
  assert (Hctor : ∀ f x,
            faults x = faults w → sigtable x = sigtable w →
            LastName x = LastName w →
            let w' := (let '(proxy, w0) := cmLoadedCommand.ctor P f x in
                       (true, ""%string,
                        cmMakefile.AddScriptedCommand name proxy w0)).2 in
            faults w' = faults w ∧ sigtable w' = sigtable w ∧
            LastName w' = LastName w).
  { intros f x Hf Hs Hn. pose proof (proxy_ctor_process f x) as Hc.
    cbv zeta in Hc. destruct (cmLoadedCommand.ctor P f x) as [p w2].
    cbn [fst snd] in Hc. destruct Hc as (_ & Hf2 & Hs2 & Hn2).
    unfold cmMakefile.AddScriptedCommand. wsimpl.
    by rewrite Hf2, Hs2, Hn2. }
  destruct (GetSymbolAddress P lib (name +:+ "Init")) as [f|].
  - apply Hctor; reflexivity.
  - destruct (GetSymbolAddress P lib ("_" +:+ name +:+ "Init")) as [f|].
    + apply Hctor; reflexivity.
    + done.
Qed.
End DirectiveMore.

(** X1.  The directive returns [true] exactly when it leaves no message:
    every failure comes with a non-empty message and no success sets one.
    Without arguments it returns [true] and changes nothing. *)
Theorem X1_directive_result_and_message (P : Platform) (args : list string)
    (w : World) :
  let r := cmLoadCommandCommand.InitialPass P args w in
  (r.1.1 = true ↔ r.1.2 = ""%string) ∧
  cmLoadCommandCommand.InitialPass P [] w = (true, ""%string, w).
Proof.
  cbv zeta. split; [|reflexivity].
  unfold cmLoadCommandCommand.InitialPass.
  destruct args as [|name locs]; [done|]. cbv zeta.
  destruct (decide _).
  { cbn [fst snd]. split; intros H; [discriminate H|].
    simpl in H. discriminate H. }
  destruct (OpenLibrary P _) as [lib|].
  2:{ cbn [fst snd]. split; intros H; [discriminate H|].
      destruct (LastError P _); simpl in H; discriminate H. }
  unfold cmLoadCommandCommand.lookup_symbol.
  destruct (GetSymbolAddress P lib (name +:+ "Init")) as [f|].
  - destruct (cmLoadedCommand.ctor P f _) as [p w2]. done.
  - destruct (GetSymbolAddress P lib ("_" +:+ name +:+ "Init")) as [f|].
    + destruct (cmLoadedCommand.ctor P f _) as [p w2]. done.
    + cbn [fst snd]. split; intros H; discriminate H.
Qed.

(** X2.  When the module file is found but the loader cannot open it, the
    directive fails with the message that names the path, followed by the
    text of the loader when there is one.  No symbol is looked up, nothing
    in the plugin is called, the report variable is unset and no command is
    created or registered. *)
Theorem X2_directive_load_failure (P : Platform) (name : string)
    (locs : list string) (w : World) :
  let var := "CMAKE_LOADED_COMMAND_" +:+ name in
  let fullPath := FindFile P (cmLoadCommandCommand.moduleName name w)
                    (cmLoadCommandCommand.searchPath P locs) in
  let r := cmLoadCommandCommand.InitialPass P (name :: locs) w in
  fullPath ≠ ""%string → OpenLibrary P fullPath = None →
  r.1.1 = false ∧
  r.1.2 = match LastError P fullPath with
          | Some error =>
              ("Attempt to load the library " +:+ fullPath +:+ " failed.")
                +:+ " Additional error info is:" +:+ newline +:+ error
          | None => "Attempt to load the library " +:+ fullPath +:+ " failed."
          end ∧
  (∃ new, log r.2 = log w ++ new ∧ symbol_lookups new = [] ∧
          foreign_calls new = [] ∧ registrations new = []) ∧
  definitions r.2 !! var = None ∧
  registry r.2 = registry w ∧ impls r.2 = impls w ∧ proxies r.2 = proxies w ∧
  heap r.2 = heap w.
Proof.
  intros var fullPath r Hne Hopen. subst r.
  unfold cmLoadCommandCommand.InitialPass. cbv zeta.
  rewrite moduleName_RemoveDefinition. fold fullPath.
  rewrite decide_False by done. rewrite Hopen.
  unfold cmMakefile.RemoveDefinition. wsimpl.
  split; [done|]. split; [by destruct (LastError P fullPath)|].
  split.
  - eexists [_; _; _]. rewrite <- !app_assoc. done.
  - split; [apply lookup_delete_eq|done].
Qed.

Lemma X2_witness :
  FindFile DemoRefused.platform "libcmFoo.so"
    (cmLoadCommandCommand.searchPath DemoRefused.platform
       ["./plugins"%string]) = "./plugins/libcmFoo.so"%string ∧
  (cmLoadCommandCommand.InitialPass DemoRefused.platform
     ["Foo"%string; "./plugins"%string] Demo.start).1
  = (false,
     "Attempt to load the library ./plugins/libcmFoo.so failed."
       +:+ " Additional error info is:" +:+ newline +:+ "file too short") ∧
  registry (cmLoadCommandCommand.InitialPass DemoRefused.platform
              ["Foo"%string; "./plugins"%string] Demo.start).2 = ∅.
Proof.
  split; [vm_compute; reflexivity|].
  assert (Hne : FindFile DemoRefused.platform
                  (cmLoadCommandCommand.moduleName "Foo" Demo.start)
                  (cmLoadCommandCommand.searchPath DemoRefused.platform
                     ["./plugins"%string]) ≠ ""%string)
    by (vm_compute; discriminate).
  destruct (X2_directive_load_failure DemoRefused.platform "Foo"
              ["./plugins"%string] Demo.start Hne eq_refl)
    as (H1 & H2 & _ & _ & H3 & _).
  split; [|exact H3].
  rewrite (surjective_pairing (_.1)). rewrite H1, H2. vm_compute. reflexivity.
Defined.



(** X4.  A load directive leaves what was loaded before alone: every
    command object and every shared state that existed is still there,
    unchanged; commands registered under other names stay registered; the
    signal dispositions, the guard's name, the queue of final actions and
    the record of heap faults are as before. *)
Theorem X4_directive_keeps_loaded_commands (P : Platform)
    (args : list string) (w : World) :
  let r := cmLoadCommandCommand.InitialPass P args w in
  (∀ p c, proxies w !! p = Some c → proxies r.2 !! p = Some c) ∧
  (∀ a o, impls w !! a = Some o → impls r.2 !! a = Some o) ∧
  (∀ n, head args ≠ Some n → registry r.2 !! n = registry w !! n) ∧
  FinalActions r.2 = FinalActions w ∧ sigtable r.2 = sigtable w ∧
  LastName r.2 = LastName w ∧ faults r.2 = faults w.
Proof.
  cbv zeta.
  destruct (directive_objects P args w) as [Ha Hobj].
  destruct (directive_process P args w) as (Hf & Hs & Hn). cbv zeta in *.
  split; [|split; [|split; [|done]]].
  - intros p c Hp. destruct Hobj as [[_ ->]|(this & _ & ->)]; [done|].
    rewrite lookup_insert_ne; [done|]. intros <-.
    by rewrite fresh_proxy in Hp.
  - intros a o Ho. destruct Hobj as [[-> _]|(this & -> & _)]; [done|].
    rewrite lookup_insert_ne; [done|]. intros <-.
    assert (E : impls w !! fresh (dom (impls w)) = None)
      by (apply not_elem_of_dom, is_fresh).
    by rewrite E in Ho.
  - intros n Hn'. destruct args as [|name locs]; [done|]. cbn in Hn'.
    destruct (decide (FindFile P (cmLoadCommandCommand.moduleName name w)
                        (cmLoadCommandCommand.searchPath P locs) = ""%string))
      as [E|E].
    { by destruct (directive_not_opened P name locs w (or_introl E))
        as (_ & _ & -> & _). }
    destruct (OpenLibrary P (FindFile P (cmLoadCommandCommand.moduleName name w)
                        (cmLoadCommandCommand.searchPath P locs)))
      as [lib|] eqn:Hopen.
    2:{ by destruct (directive_not_opened P name locs w (or_intror Hopen))
          as (_ & _ & -> & _). }
    pose proof (directive_opened P name locs w lib E Hopen) as H.
    cbv zeta in H. destruct H as (_ & tail & _ & H).
    destruct (match GetSymbolAddress P lib (name +:+ "Init") with
              | Some f => Some f
              | None => GetSymbolAddress P lib ("_" +:+ name +:+ "Init")
              end).
    + destruct H as (_ & _ & ->). rewrite lookup_insert_ne; [done|].
      congruence.
    + by destruct H as (_ & _ & -> & _).
Qed.

(** ** What a guarded call leaves behind *)

Section GuardMore.
Context (P : Platform).

Lemma guard_dtor_LastName w :
  LastName (SignalHandlerGuard.dtor P w) = LastName w.
Proof.
  unfold SignalHandlerGuard.dtor. by destruct (SIGBUS_defined P).
Qed.

(** A block that does not touch the dispositions or the recorded name. *)
Lemma scoped_left {A} name (body : World → A * World) w :
  (∀ x, sigtable (body x).2 = sigtable x ∧ LastName (body x).2 = LastName x) →
  guard_left P name (sigtable w) (SignalHandlerGuard.scoped P name body w).2.
Proof.
  intros Hbody. unfold SignalHandlerGuard.scoped.
  destruct (Hbody (SignalHandlerGuard.ctor P name w)) as [Hs Hn].
  destruct (body (SignalHandlerGuard.ctor P name w)) as [r w1].
  cbn [snd] in *.
  destruct (guard_dtor_sigtable P w1) as (H1 & H2 & H3).
  destruct (guard_ctor_sigtable P name w) as (_ & _ & H4 & H5).
  cbv zeta in *. unfold guard_left.
  rewrite guard_dtor_LastName, Hn, H5, H1, H2, H3, Hs, H4.
  by destruct (SIGBUS_defined P).
Qed.

Lemma DoInitialPass_left self this argc argv w :
  guard_left P (Name this) (sigtable w)
    (LoadedCommandImpl.DoInitialPass P self this argc argv w).2.
Proof.
  unfold LoadedCommandImpl.DoInitialPass. apply scoped_left. intros x.
  destruct (InitialPass this) as [f|]; [|done]. wsimpl.
  by destruct (code_initial_pass P f this (heap x) argc argv) as [[? ?] ?].
Qed.

Lemma DoFinalPass_left self this w :
  guard_left P (Name this) (sigtable w)
    (LoadedCommandImpl.DoFinalPass P self this w).2.
Proof.
  unfold LoadedCommandImpl.DoFinalPass. apply scoped_left. intros x.
  destruct (FinalPass this) as [f|]; [|done]. wsimpl.
  by destruct (code_final_pass P f this (heap x)) as [? ?].
Qed.

Lemma free_in_process e w :
  sigtable (free_in e w) = sigtable w ∧ LastName (free_in e w) = LastName w.
Proof. by destruct (free_in_frame e w) as (_ & _ & ? & ? & _). Qed.

Lemma Impl_dtor_left self this w :
  let w' := (LoadedCommandImpl.dtor P self this w).2 in
  match Destructor this with
  | Some _ => guard_left P (Name this) (sigtable w) w'
  | None => sigtable w' = sigtable w ∧ LastName w' = LastName w
  end.
Proof.
  unfold LoadedCommandImpl.dtor. destruct (Destructor this) as [f|].
  - pose proof (scoped_left (Name this)
        (λ w0, let w1 := emit (EvForeign KDestructor self f (sigtable w0)
                                  (LastName w0)) w0 in
               let '(this0, h) := code_destructor P f this (heap w1) in
               (this0, set_heap h w1)) w) as H.
    destruct (SignalHandlerGuard.scoped P (Name this) _ w) as [t w1].
    cbn [snd] in H. cbv zeta.
    assert (Hl : guard_left P (Name this) (sigtable w) w1).
    { apply H. intros x. wsimpl.
      by destruct (code_destructor P f this (heap x)) as [? ?]. }
    destruct (Error t) as [e|]; cbn [snd]; [|done].
    unfold guard_left in *. destruct (free_in_process e w1) as [-> ->]. done.
  - cbv zeta. destruct (Error this) as [e|]; cbn [snd]; [|done].
    apply free_in_process.
Qed.
End GuardMore.

(** X8.  After the immediate pass, the deferred pass and a teardown, the
    name of the table (or [????]) stays recorded as the last guarded name
    and the fault signals are at the null handler, whatever they were
    before; where [SIGBUS] is not defined its disposition is untouched.  A
    destructor without a teardown entry point touches neither. *)
Theorem X8_guarded_calls_leave_name (P : Platform) (self : nat)
    (this : cmLoadedCommandInfo) (argc : Z) (argv : list string) (w : World) :
  guard_left P (Name this) (sigtable w)
    (LoadedCommandImpl.DoInitialPass P self this argc argv w).2 ∧
  guard_left P (Name this) (sigtable w)
    (LoadedCommandImpl.DoFinalPass P self this w).2 ∧
  match Destructor this with
  | Some _ =>
      guard_left P (Name this) (sigtable w)
        (LoadedCommandImpl.dtor P self this w).2
  | None =>
      sigtable (LoadedCommandImpl.dtor P self this w).2 = sigtable w ∧
      LastName (LoadedCommandImpl.dtor P self this w).2 = LastName w
  end.
Proof.
  split; [apply DoInitialPass_left|]. split; [apply DoFinalPass_left|].
  apply Impl_dtor_left.
Qed.

(** ** The immediate pass: memory, message and arguments *)

Section ProxyMore.
Context (P : Platform).

(** The heap, the recorded faults, the command objects and the guard after
    an immediate pass that reached the plugin. *)
Lemma proxy_InitialPass_memory p args w c a o f :
  proxies w !! p = Some c → Impl c = Some a → impls w !! a = Some o →
  InitialPass (obj o) = Some f →
  let r := cmLoadedCommand.InitialPass P p args w in
  let w0 := match Error (obj o) with
            | Some e => free_in e w
            | None => w
            end in
  let argc := to_int (Z.of_nat (length args)) in
  let out := code_initial_pass P f (obj o) (heap w0) argc
               (take (Z.to_nat argc) args) in
  let rc := out.1.1 in
  let this := out.1.2 in
  let failed_with := if (rc =? 0)%Z then Error this else None in
  heap r.2 = out.2 ∧
  faults r.2 = faults w0 ++ match failed_with with
                            | Some e => (read_c_str e out.2).2
                            | None => []
                            end ∧
  proxies r.2 = match failed_with with
                | Some e =>
                    <[p := MkProxy (Some a) (read_c_str e out.2).1]> (proxies w)
                | None => proxies w
                end ∧
  guard_left P (Name (obj o)) (sigtable w) r.2.
Proof.
  intros Hp Hc Ho Hf. unfold cmLoadedCommand.InitialPass.
  rewrite Hp, Hc, Ho, Hf. cbv zeta.
  remember (match Error (obj o) with
            | Some e => free_in e w
            | None => w
            end) as w0 eqn:Hw0.
  assert (Hs0 : same_host w w0 ∧ sigtable w0 = sigtable w).
  { subst w0. destruct (Error (obj o)) as [e|].
    - destruct (free_in_frame e w) as (? & _ & ? & _). done.
    - unfold same_host. done. }
  clear Hw0. destruct Hs0 as [(Hi0 & Hp0 & _) Hsig0].
  pose proof (DoInitialPass_spec P a (obj o)
                (to_int (Z.of_nat (length args)))
                (take (Z.to_nat (to_int (Z.of_nat (length args)))) args) w0)
    as Hspec.
  pose proof (DoInitialPass_left P a (obj o)
                (to_int (Z.of_nat (length args)))
                (take (Z.to_nat (to_int (Z.of_nat (length args)))) args) w0)
    as Hleft.
  cbv zeta in Hspec. rewrite Hf in Hspec. rewrite Hsig0 in Hleft.
  destruct (LoadedCommandImpl.DoInitialPass P a (obj o) _ _ w0)
    as [[rc this] w1].
  destruct (code_initial_pass P f (obj o) (heap w0) _ _) as [[rc' this'] h'].
  cbn [fst snd] in *.
  destruct Hspec as ((Hi1 & Hp1 & _) & Heq & Hh1 & Hf1 & _).
  injection Heq as -> ->.
  unfold shared_ptr.store. rewrite Hi1, Hi0, Ho.
  unfold guard_left in *.
  destruct (rc' =? 0)%Z; cbn [negb].
  - destruct (Error this') as [e|].
    + wsimpl. rewrite Hh1. destruct (read_c_str e h') as [msg fs].
      unfold cmLoadedCommand.SetError. wsimpl. rewrite Hp1, Hp0, Hp. wsimpl.
      rewrite Hh1, Hf1, Hc. done.
    + wsimpl. rewrite Hh1, Hf1, Hp1, Hp0, app_nil_r. done.
  - destruct (FinalPass this') as [fp|].
    + unfold cmMakefile.AddFinalAction, shared_ptr.acquire. wsimpl.
      rewrite lookup_insert_eq. wsimpl.
      rewrite Hh1, Hf1, Hp1, Hp0, app_nil_r. done.
    + wsimpl. rewrite Hh1, Hf1, Hp1, Hp0, app_nil_r. done.
Qed.
End ProxyMore.

(** X5.  When the immediate pass fails and the plugin left a live error
    buffer in its table, the message of the command object is exactly the
    text in that buffer; the other command objects keep theirs and reading
    the text records no heap fault. *)
Theorem X5_failure_message_is_plugin_text (P : Platform) (p : nat)
    (args : list string) (w : World) (c : cmLoadedCommand) (a : nat)
    (o : SharedImpl) (f : fnptr) (e : nat) (s : string) :
  proxies w !! p = Some c → Impl c = Some a → impls w !! a = Some o →
  InitialPass (obj o) = Some f →
  let r := cmLoadedCommand.InitialPass P p args w in
  let w0 := match Error (obj o) with
            | Some e => free_in e w
            | None => w
            end in
  let argc := to_int (Z.of_nat (length args)) in
  let out := code_initial_pass P f (obj o) (heap w0) argc
               (take (Z.to_nat argc) args) in
  out.1.1 = 0%Z → Error out.1.2 = Some e → out.2 !! e = Some (Block s true) →
  r.1 = Some false ∧
  proxies r.2 !! p = Some (MkProxy (Some a) s) ∧
  (∀ q, q ≠ p → proxies r.2 !! q = proxies w !! q) ∧
  faults r.2 = faults w0.
Proof.
  intros Hp Hc Ho Hf r w0 argc out Hrc He Hs.
  pose proof (proxy_InitialPass_spec P p args w c a o Hp Hc Ho) as H1.
  pose proof (proxy_InitialPass_memory P p args w c a o f Hp Hc Ho Hf) as H2.
  cbv zeta in H1, H2. rewrite Hf in H1.
  fold r w0 argc out in H1, H2.
  destruct H1 as (Hr & _). destruct H2 as (_ & Hfl & Hpx & _).
  rewrite Hrc in Hr, Hfl, Hpx. cbn [Z.eqb negb] in Hr, Hfl, Hpx.
  rewrite He in Hfl, Hpx. unfold read_c_str in Hfl, Hpx.
  rewrite Hs in Hfl, Hpx. cbn [contents live fst snd] in Hfl, Hpx.
  rewrite Hr, Hfl, Hpx, app_nil_r, lookup_insert_eq.
  repeat split. intros q Hq. by rewrite lookup_insert_ne.
Qed.

Lemma X5_witness :
  let r := cmLoadedCommand.InitialPass Demo.platform 0 ["bad"%string]
             Demo.loaded in
  r.1 = Some false ∧
  proxies r.2 !! 0 = Some (MkProxy (Some 0) "bad arg"%string) ∧
  faults r.2 = [].
Proof.
  assert (Hp : proxies Demo.loaded !! 0 = Some (MkProxy (Some 0) ""%string))
    by (vm_compute; reflexivity).
  assert (Ho : impls Demo.loaded !! 0
               = Some (MkShared (MkInfo (Some 11) (Some 12) (Some 13)
                                        (Some "Foo"%string) None) 1))
    by (vm_compute; reflexivity).
  destruct (X5_failure_message_is_plugin_text Demo.platform 0 ["bad"%string]
              Demo.loaded _ 0 _ 11 0 "bad arg" Hp eq_refl Ho eq_refl
              ltac:(vm_compute; reflexivity) ltac:(vm_compute; reflexivity)
              ltac:(vm_compute; reflexivity)) as (H1 & H2 & _ & H3).
  cbv zeta. split; [exact H1|]. split; [exact H2|].
  rewrite H3. vm_compute. reflexivity.
Defined.

(** X6.  The message of a command object changes only when the pass fails
    with an error buffer in the table: without an immediate-pass entry
    point, on success, and on a failure that leaves the buffer pointer
    null, every command object keeps its message. *)
Theorem X6_message_kept_without_error (P : Platform) (p : nat)
    (args : list string) (w : World) (c : cmLoadedCommand) (a : nat)
    (o : SharedImpl) :
  proxies w !! p = Some c → Impl c = Some a → impls w !! a = Some o →
  let r := cmLoadedCommand.InitialPass P p args w in
  InitialPass (obj o) = None ∨ r.1 = Some true ∨
    (obj <$> impls r.2 !! a) ≫= Error = None →
  proxies r.2 = proxies w.
Proof.
  intros Hp Hc Ho r Hcase.
  pose proof (proxy_InitialPass_spec P p args w c a o Hp Hc Ho) as H1.
  cbv zeta in H1. fold r in H1.
  destruct (InitialPass (obj o)) as [f|] eqn:Hf; [|by rewrite H1].
  pose proof (proxy_InitialPass_memory P p args w c a o f Hp Hc Ho Hf) as H2.
  cbv zeta in H2. fold r in H2.
  destruct H1 as (Hr & Hi & _). destruct H2 as (_ & _ & Hpx & _).
  rewrite Hpx.
  match goal with |- context [(?x =? 0)%Z] => destruct (x =? 0)%Z end;
    [|done].
  destruct Hcase as [Hn|[Ht|He]]; [discriminate Hn| |].
  - rewrite Hr in Ht. discriminate Ht.
  - rewrite Hi, lookup_insert_eq in He. cbn in He. by rewrite He.
Qed.

Lemma X6_witness :
  proxies (cmLoadedCommand.InitialPass Demo.platform 0 ["quiet"%string]
             Demo.loaded).2 = proxies Demo.loaded ∧
  proxies (cmLoadedCommand.InitialPass Demo.platform 0 ["go"%string]
             Demo.loaded).2 = proxies Demo.loaded.
Proof.
  assert (Hp : proxies Demo.loaded !! 0 = Some (MkProxy (Some 0) ""%string))
    by (vm_compute; reflexivity).
  assert (Ho : impls Demo.loaded !! 0
               = Some (MkShared (MkInfo (Some 11) (Some 12) (Some 13)
                                        (Some "Foo"%string) None) 1))
    by (vm_compute; reflexivity).
  split.
  - apply (X6_message_kept_without_error Demo.platform 0 ["quiet"%string]
             Demo.loaded _ 0 _ Hp eq_refl Ho).
    right. right. vm_compute. reflexivity.
  - apply (X6_message_kept_without_error Demo.platform 0 ["go"%string]
             Demo.loaded _ 0 _ Hp eq_refl Ho).
    right. left. vm_compute. reflexivity.
Defined.










(** ** Cloning and destroying *)

(** X12.  Cloning a command object and destroying the clone leaves the
    process exactly as it was: the same command objects, the same use
    count, nothing called in the plugin. *)
Theorem X12_clone_then_destroy (P : Platform) (p : nat) (w : World)
    (c : cmLoadedCommand) :
  proxies w !! p = Some c →
  (∀ a, Impl c = Some a → ∃ o, impls w !! a = Some o ∧ 0 < use_count o) →
  ∃ q, (cmLoadedCommand.Clone p w).1 = Some q ∧
       cmLoadedCommand.dtor P q (cmLoadedCommand.Clone p w).2 = w.
Proof.
  intros Hp Hlive. unfold cmLoadedCommand.Clone. rewrite Hp. cbv zeta.
  pose proof (fresh_proxy w) as Hq. set (q := fresh (dom (proxies w))) in *.
  exists q. split; [reflexivity|]. cbn [snd].
  unfold cmLoadedCommand.dtor. wsimpl. rewrite lookup_insert_eq. cbn [Impl].
  destruct (Impl c) as [a|].
  - destruct (Hlive a eq_refl) as (o & Ho & Hpos).
    unfold shared_ptr.acquire, shared_ptr.release. rewrite Ho. wsimpl.
    rewrite lookup_insert_eq. cbn [use_count obj].
    destruct o as [t [|n]]; cbn [use_count obj] in *; [lia|].
    apply World_eq; wsimpl; try reflexivity.
    + rewrite insert_insert_eq. by apply insert_id.
    + by apply delete_insert_id.
  - apply World_eq; wsimpl; try reflexivity. by apply delete_insert_id.
Qed.

Lemma X12_witness :
  proxies Demo.loaded !! 0 = Some (MkProxy (Some 0) ""%string) ∧
  cmLoadedCommand.dtor Demo.platform 1
    (cmLoadedCommand.Clone 0 Demo.loaded).2 = Demo.loaded.
Proof.
  assert (Hp : proxies Demo.loaded !! 0 = Some (MkProxy (Some 0) ""%string))
    by (vm_compute; reflexivity).
  split; [exact Hp|].
  destruct (X12_clone_then_destroy Demo.platform 0 Demo.loaded _ Hp)
    as (q & Hq & H).
  - intros a Ha. injection Ha as <-. eexists. split.
    + vm_compute. reflexivity.
    + cbn. lia.
  - assert (E : q = 1).
    { assert (E1 : (cmLoadedCommand.Clone 0 Demo.loaded).1 = Some 1)
        by (vm_compute; reflexivity).
      rewrite E1 in Hq. by injection Hq. }
    by rewrite <- E.
Defined.

(** ** The destructor of the shared state *)

Section DtorMore.
Context (P : Platform).

Lemma scoped_eq {A} name (body : World → A * World) w :
  SignalHandlerGuard.scoped P name body w
  = ((body (SignalHandlerGuard.ctor P name w)).1,
     SignalHandlerGuard.dtor P (body (SignalHandlerGuard.ctor P name w)).2).
Proof.
  unfold SignalHandlerGuard.scoped.
  by destruct (body (SignalHandlerGuard.ctor P name w)).
Qed.

(** The table, the heap and the recorded faults after the destructor. *)
Lemma Impl_dtor_memory self this w :
  let r := LoadedCommandImpl.dtor P self this w in
  let out := match Destructor this with
             | Some f => code_destructor P f this (heap w)
             | None => (this, heap w)
             end in
  r.1 = out.1 ∧
  heap r.2 = match Error out.1 with
             | Some e => (free e out.2).1
             | None => out.2
             end ∧
  faults r.2 = faults w ++ match Error out.1 with
                           | Some e => (free e out.2).2
                           | None => []
                           end.
Proof.
  unfold LoadedCommandImpl.dtor.
  destruct (Destructor this) as [f|].
  - rewrite scoped_eq.
    destruct (guard_ctor_frame P (Name this) w) as (Hh & Hf & _).
    cbv zeta in *. wsimpl. rewrite Hh.
    destruct (code_destructor P f this (heap w)) as [t h]. cbn [fst snd].
    match goal with
    | |- context [SignalHandlerGuard.dtor P ?x] =>
        destruct (guard_dtor_frame P x) as (Hh' & Hf' & _);
        remember (SignalHandlerGuard.dtor P x) as w2 eqn:Hw2; clear Hw2
    end.
    cbv zeta in *. wsimpl. rewrite Hf in Hf'.
    destruct (Error t) as [e|]; cbn [fst snd].
    + destruct (free_in_frame e w2) as (_ & _ & _ & _ & -> & ->).
      by rewrite Hh', Hf'.
    + by rewrite Hh', Hf', app_nil_r.
  - cbv zeta. cbn [fst snd]. destruct (Error this) as [e|]; cbn [fst snd].
    + by destruct (free_in_frame e w) as (_ & _ & _ & _ & -> & ->).
    + by rewrite app_nil_r.
Qed.
End DtorMore.

(** X13.  The destructor frees the error buffer that is in the table once
    the teardown entry point has returned (the table as it is when there is
    none): the teardown is handed the heap with the buffer untouched, and a
    live buffer is freed once, with its bytes left in place, no other block
    changed and no fault recorded. *)
Theorem X13_destructor_frees_error_buffer (P : Platform) (self : nat)
    (this : cmLoadedCommandInfo) (w : World) (e : nat) (b : block) :
  let r := LoadedCommandImpl.dtor P self this w in
  let out := match Destructor this with
             | Some f => code_destructor P f this (heap w)
             | None => (this, heap w)
             end in
  Error out.1 = Some e → out.2 !! e = Some b → live b = true →
  r.1 = out.1 ∧
  heap r.2 = <[e := Block (contents b) false]> out.2 ∧
  faults r.2 = faults w.
Proof.
  intros r out He Hb Hl.
  destruct (Impl_dtor_memory P self this w) as (H1 & H2 & H3).
  cbv zeta in *. fold r out in H1, H2, H3.
  rewrite He in H2, H3. unfold free in H2, H3. rewrite Hb, Hl in H2, H3.
  cbn [fst snd] in H2, H3. by rewrite app_nil_r in H3.
Qed.

Lemma X13_witness :
  let this := MkInfo (Some 11) (Some 12) (Some 13) (Some "Foo"%string)
                     (Some 0) in
  let r := LoadedCommandImpl.dtor Demo.platform 0 this Demo.after_bad in
  heap Demo.after_bad !! 0 = Some (Block "bad arg" true) ∧
  heap r.2 !! 0 = Some (Block "bad arg" false) ∧
  faults r.2 = [].
Proof.
  cbv zeta.
  assert (Hb : heap Demo.after_bad !! 0 = Some (Block "bad arg" true))
    by (vm_compute; reflexivity).
  split; [exact Hb|].
  destruct (X13_destructor_frees_error_buffer Demo.platform 0
              (MkInfo (Some 11) (Some 12) (Some 13) (Some "Foo"%string)
                      (Some 0))
              Demo.after_bad 0 (Block "bad arg" true) eq_refl Hb eq_refl)
    as (_ & H2 & H3).
  rewrite H2, H3. split; [apply lookup_insert_eq|vm_compute; reflexivity].
Defined.

(** ** No shared pointer dangles *)

Lemma perform_counted (P : Platform) (act : Action) (w : World) :
  (∀ a, counted a w) → ∀ a, counted a (perform P act w).
Proof.
  intros Hall a. destruct act as [args|op]; cbn [perform].
  - by apply directive_counted.
  - by apply step_spec.
Qed.

Lemma performs_counted (P : Platform) (acts : list Action) :
  ∀ w, (∀ a, counted a w) → ∀ a, counted a (performs P acts w).
Proof.
  unfold performs. induction acts as [|act acts IH]; intros w Hall;
    cbn [foldl]; [done|].
  apply IH. by apply perform_counted.
Qed.

(** X15.  In a process that started without command objects, after any
    sequence of load directives, clones, invocations, destructions of
    command objects, drains and discards of the queue of final actions:
    the use count of every shared state is the number of command objects
    and queued closures that point to it; every command object with a
    pointer points to a state that exists; and so does every queued
    closure. *)
Theorem X15_no_dangling_shared_pointer (P : Platform) (w : World)
    (acts : list Action) :
  impls w = ∅ → proxies w = ∅ → FinalActions w = [] →
  let w' := performs P acts w in
  (∀ a, counted a w') ∧
  (∀ p c a, proxies w' !! p = Some c → Impl c = Some a →
            ∃ o, impls w' !! a = Some o ∧ use_count o = holders a w' ∧
                 0 < use_count o) ∧
  (∀ a, a ∈ FinalActions w' → is_Some (impls w' !! a)).
Proof.
  intros Hi Hp Ha w'.
  assert (Hall : ∀ a, counted a w').
  { apply performs_counted. intros a. by apply counted_start. }
  split; [exact Hall|]. split.
  - intros p c a Hpc Hc. pose proof (Hall a) as Hcnt.
    assert (Hpos : holders a w' ≠ 0).
    { unfold holders, refs_from_proxies.
      rewrite (refs_lookup a p c _ Hpc), decide_True by done. lia. }
    unfold counted, accounted in Hcnt.
    destruct (impls w' !! a) as [o|]; [|exfalso; exact (Hpos Hcnt)].
    exists o. destruct Hcnt as [E ?]. split; [done|]. split; [done|lia].
  - intros a Hin. apply (counted_alive a w' (Hall a)).
    unfold holders, refs_from_actions.
    assert (Hin' : a ∈ filter (λ x, x = a) (FinalActions w'))
      by (by apply list_elem_of_filter).
    destruct (filter (λ x, x = a) (FinalActions w')); [by inversion Hin'|].
    cbn [length]. lia.
Qed.

Lemma X15_witness :
  let w' := performs Demo.platform
              [ActLoad ["Foo"%string; "./plugins"%string];
               ActHost (OpClone 0); ActHost (OpInvoke 1 ["go"%string]);
               ActHost (OpDestroy 1); ActHost (OpDestroy 0)]
              Demo.start in
  proxies w' = ∅ ∧ FinalActions w' = [0] ∧ is_Some (impls w' !! 0) ∧
  counted 0 w'.
Proof.
  cbv zeta.
  destruct (X15_no_dangling_shared_pointer Demo.platform Demo.start
              [ActLoad ["Foo"%string; "./plugins"%string];
               ActHost (OpClone 0); ActHost (OpInvoke 1 ["go"%string]);
               ActHost (OpDestroy 1); ActHost (OpDestroy 0)]
              eq_refl eq_refl eq_refl) as (H1 & _ & H3).
  split; [vm_compute; reflexivity|]. split; [vm_compute; reflexivity|].
  split; [|apply H1].
  apply H3. vm_compute. left.
Defined.

(** X14.  Destroying a command object removes it and gives up its shared
    pointer.  While another pointer is left, only the use count changes:
    nothing is called, freed or logged.  The last pointer destroys the
    state: the teardown entry point, when the table has one, is called once
    under the guard, the error buffer left in the table is freed, and the
    state is gone; other states, the queue, the definitions and the
    registry are as before. *)
Theorem X14_destroying_a_command_object (P : Platform) (p : nat) (w : World)
    (c : cmLoadedCommand) (a : nat) (o : SharedImpl) :
  proxies w !! p = Some c → Impl c = Some a → impls w !! a = Some o →
  0 < use_count o →
  let w' := cmLoadedCommand.dtor P p w in
  if decide (use_count o = 1) then
    let out := match Destructor (obj o) with
               | Some f => code_destructor P f (obj o) (heap w)
               | None => (obj o, heap w)
               end in
    proxies w' = delete p (proxies w) ∧ impls w' = delete a (impls w) ∧
    (∃ new, log w' = log w ++ new ∧
            match Destructor (obj o) with
            | Some f => ∃ t tag,
                new = [EvForeign KDestructor a f t tag] ∧
                guard_installed P (Name (obj o)) (sigtable w) t tag
            | None => new = []
            end) ∧
    heap w' = match Error out.1 with
              | Some e => (free e out.2).1
              | None => out.2
              end ∧
    FinalActions w' = FinalActions w ∧ definitions w' = definitions w ∧
    registry w' = registry w
  else
    w' = set_impls (<[a := MkShared (obj o) (use_count o - 1)]> (impls w))
                   (set_proxies (delete p (proxies w)) w).
Proof.
  intros Hp Hc Ho Hpos. unfold cmLoadedCommand.dtor. rewrite Hp, Hc. cbv zeta.
  unfold shared_ptr.release. wsimpl. rewrite Ho.
  destruct o as [t [|[|n]]]; cbn [use_count obj] in *; [lia| |].
  - rewrite decide_True by done.
    set (w1 := set_proxies (delete p (proxies w)) w).
    pose proof (Impl_dtor_spec P a t w1) as H1.
    pose proof (Impl_dtor_memory P a t w1) as H2.
    pose proof (guard_ctor_sigtable P (Name t) w1) as Hg.
    cbv zeta in H1, H2, Hg.
    destruct (LoadedCommandImpl.dtor P a t w1) as [t' w2].
    cbn [fst snd] in H1, H2.
    destruct H1 as ((Hi & Hpx & Hd & Ha & Hr) & Hl).
    destruct H2 as (_ & Hh & _).
    wsimpl. rewrite Hi, Hpx, Hd, Ha, Hr, Hl, Hh. subst w1. wsimpl.
    repeat split. eexists. split; [reflexivity|].
    destruct (Destructor t) as [f|]; [|done].
    eexists _, _. split; [reflexivity|]. unfold guard_installed. tauto.
  - rewrite decide_False by lia. reflexivity.
Qed.

Lemma X14_witness :
  proxies Demo.loaded !! 0 = Some (MkProxy (Some 0) ""%string) ∧
  impls (cmLoadedCommand.dtor Demo.platform 0 Demo.loaded) = ∅ ∧
  teardowns 0 (log (cmLoadedCommand.dtor Demo.platform 0 Demo.loaded)) = 1.
Proof.
  assert (Hp : proxies Demo.loaded !! 0 = Some (MkProxy (Some 0) ""%string))
    by (vm_compute; reflexivity).
  assert (Ho : impls Demo.loaded !! 0
               = Some (MkShared (MkInfo (Some 11) (Some 12) (Some 13)
                                        (Some "Foo"%string) None) 1))
    by (vm_compute; reflexivity).
  pose proof (X14_destroying_a_command_object Demo.platform 0 Demo.loaded
                _ 0 _ Hp eq_refl Ho ltac:(cbn; lia)) as H.
  cbv zeta in H. cbn [use_count obj Destructor] in H.
  rewrite decide_True in H by reflexivity.
  destruct H as (_ & Hi & (new & Hl & t & tag & -> & _) & _).
  split; [exact Hp|]. rewrite Hi, Hl.
  split; vm_compute; reflexivity.
Defined.
